(** * Minimax search of the tic-tac-toe program (Nim.cpp)

    The development embeds the two mutually recursive procedures
    [FindBestMove] and [EvaluatePosition] of the source, the rating
    constants, and the data types [playerT], [moveT] and [stateT].

    Conventions.
    - A C++ [int] is a [Z].  The only arithmetic of the engine is
      [WINNING_POSITION + 1], [depth + 1] and the negation of a rating;
      signed overflow has no defined behaviour in C++, so the model speaks
      for runs in which these three stay inside the range of [int].
    - [std::cout] is a list of the strings written, oldest first.
    - The recursion is bounded by a fuel counter that limits how deeply
      calls of [EvaluatePosition] may nest; running out of fuel is [None]
      and is never confused with a result.
    - The game-specific helpers are declared in the source but not defined
      there; the engine takes them as an [Adapter]. *)

From Stdlib Require Import ZArith String Ascii Bool Lia.
From stdpp Require Import base numbers list.

Local Open Scope Z_scope.

(** ** Constants and data types of the source *)

Definition WINNING_POSITION : Z := 1000.
Definition NEUTRAL_POSITION : Z := 0.
Definition LOSING_POSITION : Z := - WINNING_POSITION.

Definition MAX_DEPTH : Z := 10000.

Inductive playerT : Set := Human | Computer.

Definition FIRST_PLAYER : playerT := Computer.

Definition moveT : Set := Z.

(** Modelled from the spec: the header grid.h is absent.  A [Grid<char>] of
    three rows and three columns is the list of its nine cells in row-major
    order, the cell of row [r] and column [c] at index [3 * r + c]. *)
Definition Grid : Set := list ascii.

Record stateT : Set := mkState {
  board : Grid;
  whoseTurn : playerT;
  turnsTaken : Z
}.

(** ** The game adapter

    The five helpers the engine calls.  [MakeMove] and [RetractMove] take the
    state by reference in the source; here they return the updated state. *)

Class Adapter : Type := {
  GenerateMoveList : stateT -> list moveT;
  MakeMove : stateT -> moveT -> stateT;
  RetractMove : stateT -> moveT -> stateT;
  GameIsOver : stateT -> bool;
  EvaluateStaticPosition : stateT -> Z
}.

(** ** Computations that may print and may run out of fuel *)

Definition M (A : Type) : Type := option (A * list string).

Definition ret {A : Type} (a : A) : M A := Some (a, []).

Definition bind {A B : Type} (m : M A) (k : A -> M B) : M B :=
  match m with
  | None => None
  | Some (a, out1) =>
      match k a with
      | None => None
      | Some (b, out2) => Some (b, out1 ++ out2)
      end
  end.

Definition print (s : string) : M unit := Some (tt, [s]).

Declare Scope engine_scope.
Delimit Scope engine_scope with engine.
Notation "'let*' x ':=' m 'in' k" := (bind m (fun x => k))
  (at level 10, x pattern, m at level 100, k at level 200) : engine_scope.
Local Open Scope engine_scope.

(** ** The search engine *)

Section Engine.

Context {A : Adapter}.

(** The [for] loop of [FindBestMove] over the moves not yet visited.  The
    loop test [i < nMoves && minRating != LOSING_POSITION] is evaluated
    before every iteration.  [bestMove] is [None] while the C++ variable is
    still uninitialised.  [state] is the local copy of the position, which
    [MakeMove] and [RetractMove] update in place. *)
Fixpoint move_loop (eval : stateT -> Z -> M Z) (moveList : list moveT)
    (state : stateT) (depth : Z) (bestMove : option moveT) (minRating : Z)
    : M (option moveT * Z * stateT) :=
  match moveList with
  | [] => ret (bestMove, minRating, state)
  | move :: rest =>
      if minRating =? LOSING_POSITION then ret (bestMove, minRating, state)
      else
        let state1 := MakeMove state move in
        let* curRating := eval state1 (depth + 1) in
        let state2 := RetractMove state1 move in
        if curRating <? minRating
        then move_loop eval rest state2 depth (Some move) curRating
        else move_loop eval rest state2 depth bestMove minRating
  end.

(** [FindBestMove], with the recursive call to [EvaluatePosition] as a
    parameter.  The result is the returned move and the value stored in the
    reference parameter [rating]. *)
Definition FindBestMove_with (eval : stateT -> Z -> M Z)
    (state : stateT) (depth : Z) : M (option moveT * Z) :=
  let moveList := GenerateMoveList state in
  let nMoves := Z.of_nat (length moveList) in
  let* _ := (if nMoves =? 0 then print "No moves available" else ret tt) in
  let* (bestMove, minRating, _) :=
    move_loop eval moveList state depth None (WINNING_POSITION + 1) in
  ret (bestMove, - minRating).

Fixpoint EvaluatePosition (fuel : nat) (state : stateT) (depth : Z) : M Z :=
  match fuel with
  | O => None
  | S fuel' =>
      if GameIsOver state || (MAX_DEPTH <=? depth)
      then ret (EvaluateStaticPosition state)
      else
        let* (_, rating) :=
          FindBestMove_with (EvaluatePosition fuel') state depth in
        ret rating
  end.

Definition FindBestMove (fuel : nat) (state : stateT) (depth : Z)
    : M (option moveT * Z) :=
  FindBestMove_with (EvaluatePosition fuel) state depth.

(** Fuel that is always enough at a given depth: the depth grows by one
    with every nested call and the recursion stops at [MAX_DEPTH]. *)
Definition fuel_of (depth : Z) : nat := S (Z.to_nat (MAX_DEPTH - depth)).

(** The values the two procedures return, as total functions. *)
Definition evaluate_position (state : stateT) (depth : Z) : Z :=
  match EvaluatePosition (fuel_of depth) state depth with
  | Some (rating, _) => rating
  | None => NEUTRAL_POSITION
  end.

Definition find_best_move (state : stateT) (depth : Z) : option moveT * Z :=
  match FindBestMove (fuel_of (depth + 1)) state depth with
  | Some (result, _) => result
  | None => (None, NEUTRAL_POSITION)
  end.

(** *** The exhaustive search

    The search the early exit is compared with: the same two procedures
    with the conjunct [minRating != LOSING_POSITION] dropped from the loop
    test, so that every move of the list is tried. *)
Fixpoint move_loop_exhaustive (eval : stateT -> Z -> M Z) (moveList : list moveT)
    (state : stateT) (depth : Z) (bestMove : option moveT) (minRating : Z)
    : M (option moveT * Z * stateT) :=
  match moveList with
  | [] => ret (bestMove, minRating, state)
  | move :: rest =>
      let state1 := MakeMove state move in
      let* curRating := eval state1 (depth + 1) in
      let state2 := RetractMove state1 move in
      if curRating <? minRating
      then move_loop_exhaustive eval rest state2 depth (Some move) curRating
      else move_loop_exhaustive eval rest state2 depth bestMove minRating
  end.

Definition FindBestMove_exhaustive_with (eval : stateT -> Z -> M Z)
    (state : stateT) (depth : Z) : M (option moveT * Z) :=
  let moveList := GenerateMoveList state in
  let nMoves := Z.of_nat (length moveList) in
  let* _ := (if nMoves =? 0 then print "No moves available" else ret tt) in
  let* (bestMove, minRating, _) :=
    move_loop_exhaustive eval moveList state depth None (WINNING_POSITION + 1) in
  ret (bestMove, - minRating).

Fixpoint EvaluatePosition_exhaustive (fuel : nat) (state : stateT) (depth : Z)
    : M Z :=
  match fuel with
  | O => None
  | S fuel' =>
      if GameIsOver state || (MAX_DEPTH <=? depth)
      then ret (EvaluateStaticPosition state)
      else
        let* (_, rating) :=
          FindBestMove_exhaustive_with (EvaluatePosition_exhaustive fuel')
            state depth in
        ret rating
  end.

Definition FindBestMove_exhaustive (fuel : nat) (state : stateT) (depth : Z)
    : M (option moveT * Z) :=
  FindBestMove_exhaustive_with (EvaluatePosition_exhaustive fuel) state depth.

Definition evaluate_position_exhaustive (state : stateT) (depth : Z) : Z :=
  match EvaluatePosition_exhaustive (fuel_of depth) state depth with
  | Some (rating, _) => rating
  | None => NEUTRAL_POSITION
  end.

Definition find_best_move_exhaustive (state : stateT) (depth : Z)
    : option moveT * Z :=
  match FindBestMove_exhaustive (fuel_of (depth + 1)) state depth with
  | Some (result, _) => result
  | None => (None, NEUTRAL_POSITION)
  end.

(** *** Calls seen from the caller

    Both procedures take [state] by value: the callee works on a copy of its
    own, and the variable of the caller keeps the value it had.  The two
    definitions pair the result of a call with the caller's position after
    the call. *)
Definition call_FindBestMove (fuel : nat) (caller_state : stateT) (depth : Z)
    : M (stateT * (option moveT * Z)) :=
  let* result := FindBestMove fuel caller_state depth in
  ret (caller_state, result).

Definition call_EvaluatePosition (fuel : nat) (caller_state : stateT) (depth : Z)
    : M (stateT * Z) :=
  let* rating := EvaluatePosition fuel caller_state depth in
  ret (caller_state, rating).

(** *** A child whose evaluation is known

    Under the evaluator [eval], the child of [P] reached by [m] at depth
    [d + 1] is rated [rate m] while printing [out m], and retracting [m]
    restores [P]. *)
Definition child_known (eval : stateT -> Z -> M Z) (rate : moveT -> Z)
    (out : moveT -> list string) (P : stateT) (d : Z) (m : moveT) : Prop :=
  eval (MakeMove P m) (d + 1) = Some (rate m, out m)
  /\ RetractMove (MakeMove P m) m = P.

End Engine.

(** ** The move loop on ratings alone

    [select_move rate moveList bestMove minRating] is what the exhaustive
    loop computes when the child reached by [move] is rated [rate move]:
    the running minimum and the first move that attained it. *)
Fixpoint select_move (rate : moveT -> Z) (moveList : list moveT)
    (bestMove : option moveT) (minRating : Z) : option moveT * Z :=
  match moveList with
  | [] => (bestMove, minRating)
  | move :: rest =>
      if rate move <? minRating
      then select_move rate rest (Some move) (rate move)
      else select_move rate rest bestMove minRating
  end.

(** The moves of the list up to and including the first one whose child is
    rated [LOSING_POSITION]; the whole list when there is none. *)
Fixpoint through_first_loss (rate : moveT -> Z) (moveList : list moveT)
    : list moveT :=
  match moveList with
  | [] => []
  | move :: rest =>
      if rate move =? LOSING_POSITION then [move]
      else move :: through_first_loss rate rest
  end.

(** ** The tic-tac-toe adapter

    The helpers below are declared in the source (its prototypes give their
    names and signatures) and defined nowhere in it. *)

Module TicTacToe.

(** Modelled from the spec: [Opponent] is absent; it toggles the player. *)
Definition Opponent (player : playerT) : playerT :=
  match player with
  | Human => Computer
  | Computer => Human
  end.

Definition playerT_eqb (p q : playerT) : bool :=
  match p, q with
  | Human, Human | Computer, Computer => true
  | _, _ => false
  end.

(** Modelled from the spec: [PlayerMark] is absent; the first player, the
    computer, plays 'X' and the human plays 'O'. *)
Definition PlayerMark (player : playerT) : ascii :=
  if playerT_eqb player FIRST_PLAYER then "X"%char else "O"%char.

(** Modelled from the spec: [WhoseTurn] is absent; it reads the field. *)
Definition WhoseTurn (state : stateT) : playerT := whoseTurn state.

(** Reading and writing [board[row][col]].  The grid class rejects an index
    outside the three rows and columns; a read there yields no character and
    a write there changes nothing. *)
Definition in_grid (row col : Z) : bool :=
  (0 <=? row) && (row <? 3) && (0 <=? col) && (col <? 3).

Definition get_cell (b : Grid) (row col : Z) : option ascii :=
  if in_grid row col then b !! Z.to_nat (3 * row + col) else None.

Definition set_cell (b : Grid) (row col : Z) (mark : ascii) : Grid :=
  if in_grid row col then <[Z.to_nat (3 * row + col) := mark]> b else b.

Definition cell_is (b : Grid) (row col : Z) (mark : ascii) : bool :=
  match get_cell b row col with
  | Some c => Ascii.eqb c mark
  | None => false
  end.

Definition move_row (move : moveT) : Z := Z.quot (move - 1) 3.
Definition move_col (move : moveT) : Z := Z.rem (move - 1) 3.

(** Modelled from the spec: [NewGame] is absent; the game starts on the empty
    board with the first player to move and no turn taken. *)
Definition NewGame : stateT :=
  {| board := replicate 9 " "%char;
     whoseTurn := FIRST_PLAYER;
     turnsTaken := 0 |}.

(** A board written as the string of its nine cells, row by row. *)
Definition board_of (cells : string) : Grid := list_ascii_of_string cells.

(** Scenario S3 of the spec: [X X . / O O . / . . .], computer to move. *)
Definition position_S3 : stateT :=
  {| board := board_of "XX OO    "; whoseTurn := Computer; turnsTaken := 4 |}.

(** Scenario S4 of the spec: [O O . / X . . / . . X], computer to move. *)
Definition position_S4 : stateT :=
  {| board := board_of "OO X    X"; whoseTurn := Computer; turnsTaken := 4 |}.

(** Scenario S5 of the spec: a full board with no winner,
    [X O X / X O O / O X X]. *)
Definition position_S5 : stateT :=
  {| board := board_of "XOXXOOOXX"; whoseTurn := Human; turnsTaken := 9 |}.

(** A state that is no position of the game: the board of S5 with a turn
    counter that says no turn was taken. *)
Definition miscounted_S5 : stateT :=
  {| board := board_of "XOXXOOOXX"; whoseTurn := Human; turnsTaken := 0 |}.

(** Modelled from the spec: [MoveIsLegal] is absent; a move is legal when
    [1 <= move <= 9] and the addressed cell is empty. *)
Definition MoveIsLegal (move : moveT) (state : stateT) : bool :=
  if (move <? 1) || (9 <? move) then false
  else cell_is (board state) (move_row move) (move_col move) " ".

(** Modelled from the spec: [GenerateMoveList] is absent; it lists the
    squares 1..9 in ascending order, keeping the legal ones. *)
Definition GenerateMoveList (state : stateT) : list moveT :=
  List.filter (fun move => MoveIsLegal move state) [1; 2; 3; 4; 5; 6; 7; 8; 9].

(** Modelled from the spec: [MakeMove] is absent; it places the mark of the
    player to move in the addressed cell, toggles the side to move and
    increments the turn counter. *)
Definition MakeMove (state : stateT) (move : moveT) : stateT :=
  {| board := set_cell (board state) (move_row move) (move_col move)
                (PlayerMark (whoseTurn state));
     whoseTurn := Opponent (whoseTurn state);
     turnsTaken := turnsTaken state + 1 |}.

(** Modelled from the spec: [RetractMove] is absent; it clears the cell,
    toggles the side to move and decrements the turn counter. *)
Definition RetractMove (state : stateT) (move : moveT) : stateT :=
  {| board := set_cell (board state) (move_row move) (move_col move) " ";
     whoseTurn := Opponent (whoseTurn state);
     turnsTaken := turnsTaken state - 1 |}.

(** Modelled from the spec: [CheckLine] is absent; starting at [(row, col)]
    and stepping by [(dRow, dCol)], the three cells all hold [mark]. *)
Definition CheckLine (b : Grid) (mark : ascii) (row col dRow dCol : Z) : bool :=
  cell_is b row col mark
  && cell_is b (row + dRow) (col + dCol) mark
  && cell_is b (row + dRow + dRow) (col + dCol + dCol) mark.

(** Modelled from the spec: the board overload of [CheckForWin] is absent; it
    scans the three rows, the three columns and the two diagonals. *)
Definition CheckForWin_board (b : Grid) (mark : ascii) : bool :=
  CheckLine b mark 0 0 0 1 || CheckLine b mark 0 0 1 0
  || CheckLine b mark 1 0 0 1 || CheckLine b mark 0 1 1 0
  || CheckLine b mark 2 0 0 1 || CheckLine b mark 0 2 1 0
  || CheckLine b mark 0 0 1 1 || CheckLine b mark 2 0 (-1) 1.

(** Modelled from the spec: the state overload of [CheckForWin] is absent; the
    player has three of their marks in a line. *)
Definition CheckForWin (state : stateT) (player : playerT) : bool :=
  CheckForWin_board (board state) (PlayerMark player).

(** Modelled from the spec: [GameIsOver] is absent; the game is over when the
    turn counter is 9 or either player has three in a row. *)
Definition GameIsOver (state : stateT) : bool :=
  (turnsTaken state =? 9)
  || CheckForWin state (whoseTurn state)
  || CheckForWin state (Opponent (whoseTurn state)).

(** Modelled from the spec: [EvaluateStaticPosition] is absent; a line of the
    side to move is a win, a line of the opponent a loss, anything else is
    neutral. *)
Definition EvaluateStaticPosition (state : stateT) : Z :=
  if CheckForWin state (whoseTurn state) then WINNING_POSITION
  else if CheckForWin state (Opponent (whoseTurn state)) then LOSING_POSITION
  else NEUTRAL_POSITION.

Definition adapter : Adapter :=
  Build_Adapter GenerateMoveList MakeMove RetractMove GameIsOver
    EvaluateStaticPosition.

(** Modelled from the spec: [ChooseComputerMove] is absent; it returns the
    move of [FindBestMove] at depth 0. *)
Definition ChooseComputerMove (state : stateT) : option moveT :=
  fst (find_best_move (A:=adapter) state 0).

(** The number of empty squares of a board. *)
Fixpoint empty_squares (b : Grid) : nat :=
  match b with
  | [] => O
  | c :: b' => ((if Ascii.eqb c " " then 1 else 0) + empty_squares b')%nat
  end.

(** A legal position: nine cells, and a turn counter that agrees with the
    number of marks on the board. *)
Definition legal_position (state : stateT) : Prop :=
  length (board state) = 9%nat
  /\ turnsTaken state = 9 - Z.of_nat (empty_squares (board state)).

End TicTacToe.


(** ** The play loop of [main]

    [main] calls eight helpers that the source declares and does not define.
    Those that touch the console or the keyboard act on a state of the
    outside world of type [io]; the two that pick a move return it together
    with the new state of the world. *)

Class Host (io : Type) : Type := {
  GiveInstructions : io -> io;
  NewGame : stateT;
  DisplayGame : stateT -> io -> io;
  DisplayMove : moveT -> io -> io;
  WhoseTurn : stateT -> playerT;
  GetUserMove : stateT -> io -> moveT * io;
  ChooseComputerMove : stateT -> io -> moveT * io;
  AnnounceResult : stateT -> io -> io
}.

Section Main.

Context {A : Adapter} {io : Type} {H : Host io}.

(** One pass through the body of the [while] loop of [main], on a position
    that is not over: the board is shown, the player to move supplies a move
    (the move of the computer is shown), and the move is made. *)
Definition play_turn (state : stateT) (w : io) : stateT * io :=
  let w1 := DisplayGame state w in
  let '(move, w2) :=
    match WhoseTurn state with
    | Human => GetUserMove state w1
    | Computer =>
        let '(move, w') := ChooseComputerMove state w1 in
        (move, DisplayMove move w')
    end in
  (MakeMove state move, w2).

(** The [while] loop of [main]; [fuel] bounds the number of times the loop
    test is evaluated. *)
Fixpoint play_loop (fuel : nat) (state : stateT) (w : io)
    : option (stateT * io) :=
  match fuel with
  | O => None
  | S fuel' =>
      if GameIsOver state then Some (state, w)
      else let '(state', w') := play_turn state w in play_loop fuel' state' w'
  end.

(** [main]: the exit status and the outside world when it returns. *)
Definition main (fuel : nat) (w : io) : option (Z * io) :=
  match play_loop fuel NewGame (GiveInstructions w) with
  | None => None
  | Some (state, w') => Some (0, AnnounceResult state w')
  end.

End Main.

(** A host to run the play loop on: a game that starts on [start], a world
    in which nothing is shown, a user who takes the first free square, and a
    computer that plays the move of [FindBestMove] at depth 0 (0 stands for a
    move never assigned). *)
Definition quiet_host (start : stateT) : Host unit := {|
  GiveInstructions := fun w => w;
  NewGame := start;
  DisplayGame := fun _ w => w;
  DisplayMove := fun _ w => w;
  WhoseTurn := TicTacToe.WhoseTurn;
  GetUserMove := fun state w =>
    (hd 0 (TicTacToe.GenerateMoveList state), w);
  ChooseComputerMove := fun state w =>
    (default 0 (TicTacToe.ChooseComputerMove state), w);
  AnnounceResult := fun _ w => w
|}.

(** The measure of the play loop of tic-tac-toe: the turns still to take. *)
Definition turns_left (state : stateT) : nat := Z.to_nat (9 - turnsTaken state).

Definition turns_in_range (state : stateT) : Prop := 0 <= turnsTaken state <= 9.

(** ** The contract of an adapter

    [Inv] singles out the positions of the game; the engine is only ever
    handed such positions, and the four laws are what the search relies
    on. *)
Class AdapterLaws (A : Adapter) (Inv : stateT -> Prop) : Prop := {
  static_bounds : forall s, Inv s ->
    LOSING_POSITION <= EvaluateStaticPosition s <= WINNING_POSITION;
  moves_available : forall s, Inv s ->
    GameIsOver s = false -> GenerateMoveList s <> [];
  retract_make : forall s m, Inv s ->
    m ∈ GenerateMoveList s -> RetractMove (MakeMove s m) m = s;
  make_inv : forall s m, Inv s ->
    m ∈ GenerateMoveList s -> Inv (MakeMove s m)
}.

(** ** Facts about the monad *)

Lemma bind_Some {X Y : Type} (m : M X) (k : X -> M Y) (y : Y) (out : list string) :
  bind m k = Some (y, out) <->
  exists x o1 o2, m = Some (x, o1) /\ k x = Some (y, o2) /\ out = o1 ++ o2.
Proof.
  unfold bind. split.
  - destruct m as [[x o1]|]; [|discriminate].
    destruct (k x) as [[y' o2]|] eqn:Hk; [|discriminate].
    intros [= <- <-]. by exists x, o1, o2.
  - intros (x & o1 & o2 & -> & Hk & ->). by rewrite Hk.
Qed.

Lemma bind_is_Some {X Y : Type} (m : M X) (k : X -> M Y) :
  is_Some m -> (forall x, is_Some (k x)) -> is_Some (bind m k).
Proof.
  intros [[x o1] ->] Hk. unfold bind.
  destruct (Hk x) as [[y o2] ->]. eauto.
Qed.

(** ** Facts that hold for every adapter *)

Section EngineFacts.

Context {A : Adapter}.

Lemma EvaluatePosition_S (n : nat) (s : stateT) (d : Z) :
  EvaluatePosition (S n) s d
  = if GameIsOver s || (MAX_DEPTH <=? d) then ret (EvaluateStaticPosition s)
    else let* (_, rating) := FindBestMove n s d in ret rating.
Proof. reflexivity. Qed.

Lemma EvaluatePosition_of_FindBestMove (n : nat) (s : stateT) (d : Z)
    (b : option moveT) (r : Z) (out : list string) :
  GameIsOver s = false -> d < MAX_DEPTH ->
  FindBestMove n s d = Some (b, r, out) ->
  EvaluatePosition (S n) s d = Some (r, out).
Proof.
  intros Hover Hd Hf. rewrite EvaluatePosition_S, Hover, Hf. simpl.
  rewrite (proj2 (Z.leb_gt _ _) Hd). unfold bind, ret. by rewrite app_nil_r.
Qed.

Lemma move_loop_mono (eval1 eval2 : stateT -> Z -> M Z) :
  (forall s d r, eval1 s d = Some r -> eval2 s d = Some r) ->
  forall moves s d b mn r,
    move_loop eval1 moves s d b mn = Some r ->
    move_loop eval2 moves s d b mn = Some r.
Proof.
  intros Hev. induction moves as [|m rest IH]; intros s d b mn [x out]; simpl; [done|].
  destruct (mn =? LOSING_POSITION); [done|].
  rewrite !bind_Some. intros (c & o1 & o2 & Hc & Hk & ->).
  exists c, o1, o2. split; [by apply Hev|]. split; [|done].
  destruct (c <? mn); by apply IH.
Qed.

Lemma move_loop_total (eval : stateT -> Z -> M Z) (d : Z) :
  (forall s, is_Some (eval s (d + 1))) ->
  forall moves s b mn, is_Some (move_loop eval moves s d b mn).
Proof.
  intros Hev. induction moves as [|m rest IH]; intros s b mn; simpl; [by eexists|].
  destruct (mn =? LOSING_POSITION); [by eexists|].
  apply bind_is_Some; [apply Hev|]. intros c. destruct (c <? mn); apply IH.
Qed.

Lemma FindBestMove_with_mono (eval1 eval2 : stateT -> Z -> M Z) :
  (forall s d r, eval1 s d = Some r -> eval2 s d = Some r) ->
  forall s d r,
    FindBestMove_with eval1 s d = Some r -> FindBestMove_with eval2 s d = Some r.
Proof.
  intros Hev s d [x out]. unfold FindBestMove_with.
  rewrite !bind_Some. intros (u & o1 & o2 & Hu & Hk & ->).
  exists u, o1, o2. split; [done|]. split; [|done].
  revert Hk. rewrite !bind_Some. intros (v & o3 & o4 & Hv & Hk & ->).
  exists v, o3, o4. split; [|done]. by eapply move_loop_mono.
Qed.

Lemma FindBestMove_with_total (eval : stateT -> Z -> M Z) (s : stateT) (d : Z) :
  (forall s', is_Some (eval s' (d + 1))) -> is_Some (FindBestMove_with eval s d).
Proof.
  intros Hev. unfold FindBestMove_with.
  apply bind_is_Some.
  - destruct (_ =? 0); by eexists.
  - intros _. apply bind_is_Some; [by apply move_loop_total|].
    intros [[b mn] s']. by eexists.
Qed.

Lemma EvaluatePosition_mono (n m : nat) (s : stateT) (d : Z) (r : Z * list string) :
  (n <= m)%nat -> EvaluatePosition n s d = Some r -> EvaluatePosition m s d = Some r.
Proof.
  revert m s d r. induction n as [|n IH]; intros m s d r Hle; [done|].
  destruct m as [|m]; [lia|]. simpl.
  destruct (GameIsOver s || (MAX_DEPTH <=? d)); [done|].
  destruct r as [x out]. rewrite !bind_Some.
  intros (u & o1 & o2 & Hu & Hk & ->). exists u, o1, o2.
  split; [|done]. eapply FindBestMove_with_mono; [|exact Hu].
  intros s' d' r'. apply IH. lia.
Qed.

Lemma fuel_of_succ (d : Z) : d < MAX_DEPTH -> fuel_of d = S (fuel_of (d + 1)).
Proof. unfold fuel_of. intros Hd. f_equal. lia. Qed.

Lemma EvaluatePosition_total (n : nat) (s : stateT) (d : Z) :
  (fuel_of d <= n)%nat -> is_Some (EvaluatePosition n s d).
Proof.
  revert s d. induction n as [|n IH]; intros s d Hn; [unfold fuel_of in Hn; lia|].
  simpl. destruct (GameIsOver s) eqn:Hover; simpl; [by eexists|].
  destruct (MAX_DEPTH <=? d) eqn:Hd; [by eexists|].
  apply Z.leb_gt in Hd. rewrite fuel_of_succ in Hn by done.
  apply bind_is_Some.
  - apply FindBestMove_with_total. intros s'. apply IH. lia.
  - intros [b r]. by eexists.
Qed.

Lemma FindBestMove_mono (n m : nat) (s : stateT) (d : Z)
    (r : option moveT * Z * list string) :
  (n <= m)%nat -> FindBestMove n s d = Some r -> FindBestMove m s d = Some r.
Proof.
  intros Hle. apply FindBestMove_with_mono.
  intros s' d' r'. by apply EvaluatePosition_mono.
Qed.

Lemma FindBestMove_total (n : nat) (s : stateT) (d : Z) :
  (fuel_of (d + 1) <= n)%nat -> is_Some (FindBestMove n s d).
Proof.
  intros Hn. apply FindBestMove_with_total. intros s'.
  by apply EvaluatePosition_total.
Qed.

(** With enough fuel the run returns the value of the total function. *)
Lemma EvaluatePosition_value (n : nat) (s : stateT) (d : Z) :
  (fuel_of d <= n)%nat ->
  exists out, EvaluatePosition n s d = Some (evaluate_position s d, out).
Proof.
  intros Hn. unfold evaluate_position.
  destruct (EvaluatePosition_total (fuel_of d) s d) as [[r out] Hr]; [done|].
  rewrite Hr. exists out. by eapply EvaluatePosition_mono.
Qed.

Lemma FindBestMove_value (n : nat) (s : stateT) (d : Z) :
  (fuel_of (d + 1) <= n)%nat ->
  exists out, FindBestMove n s d = Some (find_best_move s d, out).
Proof.
  intros Hn. unfold find_best_move.
  destruct (FindBestMove_total (fuel_of (d + 1)) s d) as [[r out] Hr]; [done|].
  rewrite Hr. exists out. by eapply FindBestMove_mono.
Qed.

(** A run that returns, returns the value of the total function. *)
Lemma EvaluatePosition_Some_value (n : nat) (s : stateT) (d r : Z) (out : list string) :
  EvaluatePosition n s d = Some (r, out) -> evaluate_position s d = r.
Proof.
  intros Hr. unfold evaluate_position.
  destruct (Nat.le_ge_cases n (fuel_of d)) as [Hle|Hle].
  - by rewrite (EvaluatePosition_mono _ _ _ _ _ Hle Hr).
  - destruct (EvaluatePosition_total (fuel_of d) s d) as [[r' out'] Hr']; [done|].
    rewrite Hr'. pose proof (EvaluatePosition_mono _ _ _ _ _ Hle Hr') as H.
    congruence.
Qed.

Lemma FindBestMove_Some_value (n : nat) (s : stateT) (d : Z)
    (r : option moveT * Z) (out : list string) :
  FindBestMove n s d = Some (r, out) -> find_best_move s d = r.
Proof.
  intros Hr. unfold find_best_move.
  destruct (Nat.le_ge_cases n (fuel_of (d + 1))) as [Hle|Hle].
  - by rewrite (FindBestMove_mono _ _ _ _ _ Hle Hr).
  - destruct (FindBestMove_total (fuel_of (d + 1)) s d) as [[r' out'] Hr']; [done|].
    rewrite Hr'. pose proof (FindBestMove_mono _ _ _ _ _ Hle Hr') as H.
    congruence.
Qed.

End EngineFacts.

(** ** Facts about the loop on ratings *)

Lemma select_move_no_update (rate : moveT -> Z) (moves : list moveT)
    (b : option moveT) (mn : Z) :
  (forall m, m ∈ moves -> mn <= rate m) -> select_move rate moves b mn = (b, mn).
Proof.
  induction moves as [|m rest IH]; intros H; simpl; [done|].
  destruct (Z.ltb_spec (rate m) mn) as [Hlt|Hge].
  - specialize (H m). rewrite elem_of_cons in H. lia.
  - apply IH. intros m' Hm'. apply H. rewrite elem_of_cons. by right.
Qed.

(** The result of the loop: the minimum never grows, it is a lower bound of
    every rating, and either nothing was recorded or the recorded move is
    the first one of the list that attains the minimum. *)
Lemma select_move_spec (rate : moveT -> Z) (moves : list moveT) :
  forall (b : option moveT) (mn : Z) b' mn',
    select_move rate moves b mn = (b', mn') ->
    mn' <= mn
    /\ (forall m, m ∈ moves -> mn' <= rate m)
    /\ ((b' = b /\ mn' = mn)
        \/ exists pre mv post,
             moves = pre ++ mv :: post /\ b' = Some mv /\ mn' = rate mv
             /\ rate mv < mn /\ forall m, m ∈ pre -> rate mv < rate m).
Proof.
  induction moves as [|m rest IH]; intros b mn b' mn'; simpl.
  - intros [= <- <-]. split; [lia|]. split; [|by left].
    intros m Hm. by apply elem_of_nil in Hm.
  - destruct (Z.ltb_spec (rate m) mn) as [Hlt|Hge]; intros Hsel;
      destruct (IH _ _ _ _ Hsel) as (Hle & Hlow & Hcase).
    + split; [lia|]. split.
      { intros m' [->|Hm']%elem_of_cons; [lia|by apply Hlow]. }
      right. destruct Hcase as [[-> ->]|(pre & mv & post & -> & -> & -> & Hmv & Hpre)].
      * exists [], m, rest. repeat split; try done.
        intros m' Hm'. by apply elem_of_nil in Hm'.
      * exists (m :: pre), mv, post. repeat split; try done; [lia|].
        intros m' [->|Hm']%elem_of_cons; [lia|by apply Hpre].
    + split; [lia|]. split.
      { intros m' [->|Hm']%elem_of_cons; [lia|by apply Hlow]. }
      destruct Hcase as [[-> ->]|(pre & mv & post & -> & -> & -> & Hmv & Hpre)];
        [by left|right].
      exists (m :: pre), mv, post. repeat split; try done.
      intros m' [->|Hm']%elem_of_cons; [lia|by apply Hpre].
Qed.

(** Started on the sentinel with a non-empty list of ratings that are at
    most [WINNING_POSITION], the loop records a move. *)
Lemma select_move_records (rate : moveT -> Z) (moves : list moveT) b' mn' :
  moves <> [] ->
  (forall m, m ∈ moves -> rate m <= WINNING_POSITION) ->
  select_move rate moves None (WINNING_POSITION + 1) = (b', mn') ->
  exists pre mv post,
    moves = pre ++ mv :: post /\ b' = Some mv /\ mn' = rate mv
    /\ (forall m, m ∈ moves -> rate mv <= rate m)
    /\ (forall m, m ∈ pre -> rate mv < rate m).
Proof.
  intros Hne Hup Hsel.
  destruct (select_move_spec _ _ _ _ _ _ Hsel) as (_ & Hlow & Hcase).
  destruct Hcase as [[-> ->]|(pre & mv & post & -> & -> & -> & _ & Hpre)].
  - destruct moves as [|m rest]; [done|].
    specialize (Hlow m). specialize (Hup m). rewrite elem_of_cons in Hlow, Hup. lia.
  - by exists pre, mv, post.
Qed.

Lemma through_first_loss_subset (rate : moveT -> Z) (moves : list moveT) (m : moveT) :
  m ∈ through_first_loss rate moves -> m ∈ moves.
Proof.
  induction moves as [|m' rest IH]; simpl; [done|].
  destruct (rate m' =? LOSING_POSITION); rewrite !elem_of_cons.
  - intros [->|[]%elem_of_nil]. by left.
  - intros [->|Hm]; [by left|right; by apply IH].
Qed.

(** Dropping the moves after the first one rated [LOSING_POSITION] does not
    change what the exhaustive loop selects, as long as no rating is below
    [LOSING_POSITION]. *)
Lemma select_move_through_first_loss (rate : moveT -> Z) (moves : list moveT) :
  (forall m, m ∈ moves -> LOSING_POSITION <= rate m) ->
  forall b mn,
    LOSING_POSITION < mn ->
    select_move rate (through_first_loss rate moves) b mn
    = select_move rate moves b mn.
Proof.
  induction moves as [|m rest IH]; intros Hlow b mn Hmn; simpl; [done|].
  assert (Hrest : forall m', m' ∈ rest -> LOSING_POSITION <= rate m').
  { intros m' Hm'. apply Hlow. rewrite elem_of_cons. by right. }
  assert (Hm : LOSING_POSITION <= rate m).
  { apply Hlow. rewrite elem_of_cons. by left. }
  destruct (Z.eqb_spec (rate m) LOSING_POSITION) as [Heq|Hne]; simpl.
  - destruct (Z.ltb_spec (rate m) mn) as [Hlt|Hge]; [|lia].
    rewrite select_move_no_update; [done|].
    intros m' Hm'. rewrite Heq. by apply Hrest.
  - destruct (Z.ltb_spec (rate m) mn) as [Hlt|Hge]; apply IH; try done; lia.
Qed.

(** ** The move loop when the children are known

    Throughout, the child reached by [m] evaluates to [rate m] and prints
    [out m], and retracting [m] restores the position. *)

Section MoveLoop.

Context {A : Adapter}.
Variable eval : stateT -> Z -> M Z.
Variable rate : moveT -> Z.
Variable out : moveT -> list string.
Variable P : stateT.
Variable d : Z.

Lemma move_loop_exit (moves : list moveT) (s : stateT) (b : option moveT) :
  move_loop eval moves s d b LOSING_POSITION = ret (b, LOSING_POSITION, s).
Proof. by destruct moves. Qed.

Lemma move_loop_exhaustive_known (moves : list moveT) :
  (forall m, m ∈ moves -> child_known eval rate out P d m) ->
  forall b mn,
    move_loop_exhaustive eval moves P d b mn
    = Some (select_move rate moves b mn, P, concat (map out moves)).
Proof.
  induction moves as [|m rest IH]; intros Hk b mn; simpl; [done|].
  destruct (Hk m) as [Hev Hrt]; [rewrite elem_of_cons; by left|].
  assert (Hrest : forall m', m' ∈ rest -> child_known eval rate out P d m').
  { intros m' Hm'. apply Hk. rewrite elem_of_cons. by right. }
  rewrite Hev, Hrt. unfold bind.
  destruct (rate m <? mn); by rewrite IH.
Qed.

(** The early exit skips exactly the moves after the first one whose child
    is rated [LOSING_POSITION]. *)
Lemma move_loop_through_first_loss (moves : list moveT) :
  (forall m, m ∈ moves -> child_known eval rate out P d m) ->
  (forall m, m ∈ moves -> LOSING_POSITION <= rate m) ->
  forall b mn,
    LOSING_POSITION < mn ->
    move_loop eval moves P d b mn
    = move_loop_exhaustive eval (through_first_loss rate moves) P d b mn.
Proof.
  induction moves as [|m rest IH]; intros Hk Hlow b mn Hmn; simpl; [done|].
  destruct (Hk m) as [Hev Hrt]; [rewrite elem_of_cons; by left|].
  assert (Hm : LOSING_POSITION <= rate m).
  { apply Hlow. rewrite elem_of_cons. by left. }
  assert (Hrest : forall m', m' ∈ rest -> child_known eval rate out P d m').
  { intros m' Hm'. apply Hk. rewrite elem_of_cons. by right. }
  assert (Hrest' : forall m', m' ∈ rest -> LOSING_POSITION <= rate m').
  { intros m' Hm'. apply Hlow. rewrite elem_of_cons. by right. }
  destruct (Z.eqb_spec mn LOSING_POSITION) as [Heq|_]; [lia|].
  destruct (Z.eqb_spec (rate m) LOSING_POSITION) as [Heq|Hne]; simpl;
    rewrite Hev, Hrt; unfold bind.
  - destruct (Z.ltb_spec (rate m) mn) as [Hlt|Hge]; [|lia].
    rewrite Heq, move_loop_exit. done.
  - destruct (Z.ltb_spec (rate m) mn) as [Hlt|Hge]; rewrite IH by (done || lia); done.
Qed.

Lemma move_loop_known (moves : list moveT) (b : option moveT) (mn : Z) :
  (forall m, m ∈ moves -> child_known eval rate out P d m) ->
  (forall m, m ∈ moves -> LOSING_POSITION <= rate m) ->
  LOSING_POSITION < mn ->
  move_loop eval moves P d b mn
  = Some (select_move rate moves b mn, P,
          concat (map out (through_first_loss rate moves))).
Proof.
  intros Hk Hlow Hmn.
  rewrite move_loop_through_first_loss by done.
  rewrite move_loop_exhaustive_known.
  - by rewrite select_move_through_first_loss.
  - intros m Hm. apply Hk. by eapply through_first_loss_subset.
Qed.

End MoveLoop.

(** ** [FindBestMove] when the children are known *)

Section FindBestMoveKnown.

Context {A : Adapter}.

Lemma concat_map_silent (moves : list moveT) :
  concat (map (fun _ : moveT => @nil string) moves) = [].
Proof. induction moves as [|m rest IH]; simpl; done. Qed.

Lemma no_moves_test (moves : list moveT) :
  moves <> [] -> (Z.of_nat (length moves) =? 0) = false.
Proof. intros Hne. destruct moves; [done|]. apply Z.eqb_neq. simpl. lia. Qed.

Lemma FindBestMove_with_known (eval : stateT -> Z -> M Z) (rate : moveT -> Z)
    (out : moveT -> list string) (P : stateT) (d : Z) :
  GenerateMoveList P <> [] ->
  (forall m, m ∈ GenerateMoveList P -> child_known eval rate out P d m) ->
  (forall m, m ∈ GenerateMoveList P -> LOSING_POSITION <= rate m) ->
  FindBestMove_with eval P d
  = let sel := select_move rate (GenerateMoveList P) None (WINNING_POSITION + 1) in
    Some (fst sel, - snd sel,
          concat (map out (through_first_loss rate (GenerateMoveList P)))).
Proof.
  intros Hne Hk Hlow. unfold FindBestMove_with.
  rewrite no_moves_test by done.
  rewrite (move_loop_known eval rate out) by (done || (unfold LOSING_POSITION, WINNING_POSITION; lia)).
  unfold bind, ret. simpl.
  destruct (select_move _ _ _ _) as [b mn]. simpl. by rewrite app_nil_r.
Qed.

Lemma FindBestMove_exhaustive_with_known (eval : stateT -> Z -> M Z)
    (rate : moveT -> Z) (out : moveT -> list string) (P : stateT) (d : Z) :
  GenerateMoveList P <> [] ->
  (forall m, m ∈ GenerateMoveList P -> child_known eval rate out P d m) ->
  FindBestMove_exhaustive_with eval P d
  = let sel := select_move rate (GenerateMoveList P) None (WINNING_POSITION + 1) in
    Some (fst sel, - snd sel, concat (map out (GenerateMoveList P))).
Proof.
  intros Hne Hk. unfold FindBestMove_exhaustive_with.
  rewrite no_moves_test by done.
  rewrite (move_loop_exhaustive_known eval rate out) by done.
  unfold bind, ret. simpl.
  destruct (select_move _ _ _ _) as [b mn]. simpl. by rewrite app_nil_r.
Qed.

End FindBestMoveKnown.

(** ** The engine on an adapter that keeps its contract *)

Section Contract.

Context {A : Adapter} {Inv : stateT -> Prop} {L : AdapterLaws A Inv}.

(** One level of the recursion: when every child of [P] evaluates silently
    to a rating within the bounds, in the engine and in the exhaustive
    search alike, so does [P]. *)
Lemma EvaluatePosition_step (n : nat) (P : stateT) (d : Z) :
  Inv P ->
  (GameIsOver P = false -> d < MAX_DEPTH ->
   forall m, m ∈ GenerateMoveList P ->
     EvaluatePosition n (MakeMove P m) (d + 1)
       = Some (evaluate_position (MakeMove P m) (d + 1), [])
     /\ EvaluatePosition_exhaustive n (MakeMove P m) (d + 1)
       = Some (evaluate_position (MakeMove P m) (d + 1), [])
     /\ LOSING_POSITION <= evaluate_position (MakeMove P m) (d + 1)
        <= WINNING_POSITION) ->
  EvaluatePosition (S n) P d = Some (evaluate_position P d, [])
  /\ EvaluatePosition_exhaustive (S n) P d = Some (evaluate_position P d, [])
  /\ LOSING_POSITION <= evaluate_position P d <= WINNING_POSITION.
Proof.
  intros HP Hch.
  cut (exists r, EvaluatePosition (S n) P d = Some (r, [])
         /\ EvaluatePosition_exhaustive (S n) P d = Some (r, [])
         /\ LOSING_POSITION <= r <= WINNING_POSITION).
  { intros (r & Hr & Hx & Hb).
    rewrite (EvaluatePosition_Some_value _ _ _ _ _ Hr). done. }
  simpl. destruct (GameIsOver P) eqn:Hover; simpl.
  { eexists. repeat split; by apply static_bounds. }
  destruct (Z.leb_spec MAX_DEPTH d) as [Hd|Hd].
  { eexists. repeat split; by apply static_bounds. }
  specialize (Hch eq_refl Hd).
  pose proof (moves_available P HP Hover) as Hne.
  set (rate := fun m => evaluate_position (MakeMove P m) (d + 1)).
  rewrite (FindBestMove_with_known _ rate (fun _ => [])); [|done| |].
  2:{ intros m Hm. split; [by apply Hch|by apply retract_make]. }
  2:{ intros m Hm. by apply Hch. }
  rewrite (FindBestMove_exhaustive_with_known _ rate (fun _ => [])); [|done|].
  2:{ intros m Hm. split; [by apply Hch|by apply retract_make]. }
  rewrite !concat_map_silent. simpl.
  destruct (select_move rate _ _ _) as [b mn] eqn:Hsel. simpl.
  exists (- mn). split; [done|]. split; [done|].
  apply select_move_records in Hsel; [|done|intros m Hm; by apply Hch].
  destruct Hsel as (pre & mv & post & Hmoves & -> & -> & _).
  assert (Hmv : mv ∈ GenerateMoveList P).
  { rewrite Hmoves, elem_of_app, elem_of_cons. right. by left. }
  destruct (Hch mv Hmv) as (_ & _ & Hb). fold (rate mv) in Hb.
  unfold LOSING_POSITION in *. lia.
Qed.

(** With the fuel [fuel_of d] both searches return, silently, the same
    rating, and it lies within the bounds. *)
Lemma EvaluatePosition_agree (n : nat) :
  forall (P : stateT) (d : Z),
    Inv P -> (fuel_of d <= n)%nat ->
    EvaluatePosition n P d = Some (evaluate_position P d, [])
    /\ EvaluatePosition_exhaustive n P d = Some (evaluate_position P d, [])
    /\ LOSING_POSITION <= evaluate_position P d <= WINNING_POSITION.
Proof.
  induction n as [|n IH]; intros P d HP Hn; [unfold fuel_of in Hn; lia|].
  apply EvaluatePosition_step; [done|].
  intros Hover Hd m Hm. apply IH; [by apply make_inv|].
  rewrite fuel_of_succ in Hn by done. lia.
Qed.

Lemma evaluate_position_bounds (P : stateT) (d : Z) :
  Inv P -> LOSING_POSITION <= evaluate_position P d <= WINNING_POSITION.
Proof. intros HP. by apply (EvaluatePosition_agree (fuel_of d)). Qed.

Lemma evaluate_position_exhaustive_eq (P : stateT) (d : Z) :
  Inv P -> evaluate_position_exhaustive P d = evaluate_position P d.
Proof.
  intros HP. unfold evaluate_position_exhaustive.
  destruct (EvaluatePosition_agree (fuel_of d) P d) as (_ & -> & _); done.
Qed.

(** The children of a position, as [FindBestMove] with fuel [n] sees them. *)
Lemma children_known (n : nat) (P : stateT) (d : Z) :
  Inv P -> (fuel_of (d + 1) <= n)%nat ->
  forall m, m ∈ GenerateMoveList P ->
    child_known (EvaluatePosition n)
      (fun m => evaluate_position (MakeMove P m) (d + 1)) (fun _ => []) P d m
    /\ child_known (EvaluatePosition_exhaustive n)
      (fun m => evaluate_position (MakeMove P m) (d + 1)) (fun _ => []) P d m.
Proof.
  intros HP Hn m Hm.
  destruct (EvaluatePosition_agree n (MakeMove P m) (d + 1)) as (He & Hx & _);
    [by apply make_inv|done|].
  repeat split; try done; by apply retract_make.
Qed.

(** [FindBestMove] and its exhaustive counterpart, in terms of the loop on
    the ratings of the children. *)
Lemma FindBestMove_select (n : nat) (P : stateT) (d : Z) :
  Inv P -> GenerateMoveList P <> [] -> (fuel_of (d + 1) <= n)%nat ->
  let sel := select_move (fun m => evaluate_position (MakeMove P m) (d + 1))
               (GenerateMoveList P) None (WINNING_POSITION + 1) in
  FindBestMove n P d = Some (fst sel, - snd sel, [])
  /\ FindBestMove_exhaustive n P d = Some (fst sel, - snd sel, []).
Proof.
  intros HP Hne Hn sel. unfold FindBestMove, FindBestMove_exhaustive.
  set (rate := fun m => evaluate_position (MakeMove P m) (d + 1)) in *.
  rewrite (FindBestMove_with_known _ rate (fun _ => [])); [|done| |].
  2:{ intros m Hm. by apply children_known. }
  2:{ intros m Hm. apply evaluate_position_bounds. by apply make_inv. }
  rewrite (FindBestMove_exhaustive_with_known _ rate (fun _ => [])); [|done|].
  2:{ intros m Hm. by apply children_known. }
  by rewrite !concat_map_silent.
Qed.

Lemma find_best_move_select (P : stateT) (d : Z) :
  Inv P -> GenerateMoveList P <> [] ->
  let sel := select_move (fun m => evaluate_position (MakeMove P m) (d + 1))
               (GenerateMoveList P) None (WINNING_POSITION + 1) in
  find_best_move P d = (fst sel, - snd sel)
  /\ find_best_move_exhaustive P d = (fst sel, - snd sel).
Proof.
  intros HP Hne sel.
  destruct (FindBestMove_select (fuel_of (d + 1)) P d HP Hne) as [Hf Hx]; [done|].
  unfold find_best_move, find_best_move_exhaustive. by rewrite Hf, Hx.
Qed.

(** The rating of a position that is searched is the rating [FindBestMove]
    stores. *)
Lemma evaluate_position_unfold (P : stateT) (d : Z) :
  evaluate_position P d
  = if GameIsOver P || (MAX_DEPTH <=? d) then EvaluateStaticPosition P
    else snd (find_best_move P d).
Proof.
  unfold evaluate_position, find_best_move.
  destruct (GameIsOver P || (MAX_DEPTH <=? d)) eqn:Hc.
  - unfold fuel_of. by rewrite EvaluatePosition_S, Hc.
  - assert (Hd : d < MAX_DEPTH).
    { apply orb_false_iff in Hc as [_ Hd]. by apply Z.leb_gt in Hd. }
    rewrite (fuel_of_succ d), EvaluatePosition_S, Hc by done.
    destruct (FindBestMove_total (fuel_of (d + 1)) P d) as [[[b r] out] Hf]; [done|].
    by rewrite Hf.
Qed.

(** The move [FindBestMove] returns: the first move of the list whose child
    has the least rating.  The exhaustive search returns the same. *)
Lemma find_best_move_choice (P : stateT) (d : Z) :
  Inv P -> GenerateMoveList P <> [] ->
  exists pre mv post,
    GenerateMoveList P = pre ++ mv :: post
    /\ (forall n, (fuel_of (d + 1) <= n)%nat ->
          FindBestMove n P d
          = Some (Some mv, - evaluate_position (MakeMove P mv) (d + 1), [])
          /\ FindBestMove_exhaustive n P d
          = Some (Some mv, - evaluate_position (MakeMove P mv) (d + 1), []))
    /\ find_best_move P d
       = (Some mv, - evaluate_position (MakeMove P mv) (d + 1))
    /\ find_best_move_exhaustive P d
       = (Some mv, - evaluate_position (MakeMove P mv) (d + 1))
    /\ (forall m, m ∈ GenerateMoveList P ->
          evaluate_position (MakeMove P mv) (d + 1)
          <= evaluate_position (MakeMove P m) (d + 1))
    /\ (forall m, m ∈ pre ->
          evaluate_position (MakeMove P mv) (d + 1)
          < evaluate_position (MakeMove P m) (d + 1)).
Proof.
  intros HP Hne.
  set (rate := fun m => evaluate_position (MakeMove P m) (d + 1)).
  destruct (select_move rate (GenerateMoveList P) None (WINNING_POSITION + 1))
    as [b mn] eqn:Hsel.
  pose proof Hsel as Hrec. apply select_move_records in Hrec; [|done|].
  2:{ intros m Hm. apply evaluate_position_bounds. by apply make_inv. }
  destruct Hrec as (pre & mv & post & Hmoves & -> & -> & Hmin & Hpre).
  exists pre, mv, post. split; [done|]. split; [|split; [|split; [|split]]].
  - intros n Hn. pose proof (FindBestMove_select n P d HP Hne Hn) as Hf.
    fold rate in Hf. by rewrite Hsel in Hf.
  - destruct (find_best_move_select P d HP Hne) as [Hf _].
    fold rate in Hf. by rewrite Hsel in Hf.
  - destruct (find_best_move_select P d HP Hne) as [_ Hf].
    fold rate in Hf. by rewrite Hsel in Hf.
  - done.
  - done.
Qed.

(** The apply/retract discipline: when the loop of [FindBestMove] ends, the
    working copy of the position is the position the call was given. *)
Lemma working_copy_restored (n : nat) (P : stateT) (d : Z) :
  Inv P -> (fuel_of (d + 1) <= n)%nat ->
  exists bestMove minRating,
    move_loop (EvaluatePosition n) (GenerateMoveList P) P d None
      (WINNING_POSITION + 1)
    = Some (bestMove, minRating, P, []).
Proof.
  intros HP Hn.
  set (rate := fun m => evaluate_position (MakeMove P m) (d + 1)).
  rewrite (move_loop_known _ rate (fun _ => [])).
  - rewrite concat_map_silent.
    destruct (select_move rate _ _ _) as [b mn]. by exists b, mn.
  - intros m Hm. by apply children_known.
  - intros m Hm. apply evaluate_position_bounds. by apply make_inv.
  - unfold LOSING_POSITION, WINNING_POSITION. lia.
Qed.

End Contract.

(** ** The tic-tac-toe adapter keeps the contract *)

Section TicTacToeFacts.

#[local] Existing Instance TicTacToe.adapter.

Lemma move_square (m : moveT) :
  1 <= m <= 9 ->
  TicTacToe.in_grid (TicTacToe.move_row m) (TicTacToe.move_col m) = true
  /\ Z.to_nat (3 * TicTacToe.move_row m + TicTacToe.move_col m) = Z.to_nat (m - 1)
  /\ In m [1; 2; 3; 4; 5; 6; 7; 8; 9].
Proof.
  intros Hm.
  assert (m = 1 \/ m = 2 \/ m = 3 \/ m = 4 \/ m = 5 \/ m = 6 \/ m = 7 \/ m = 8
          \/ m = 9) as Hcases by lia.
  repeat (destruct Hcases as [->|Hcases]); try subst m;
    (split; [reflexivity|split; [reflexivity|simpl; tauto]]).
Qed.

Lemma MoveIsLegal_true (m : moveT) (s : stateT) :
  TicTacToe.MoveIsLegal m s = true <->
  1 <= m <= 9 /\ board s !! Z.to_nat (m - 1) = Some " "%char.
Proof.
  unfold TicTacToe.MoveIsLegal, TicTacToe.cell_is, TicTacToe.get_cell.
  destruct (Z.ltb_spec m 1) as [H1|H1]; simpl; [split; [done|lia]|].
  destruct (Z.ltb_spec 9 m) as [H9|H9]; simpl; [split; [done|lia]|].
  destruct (move_square m) as (-> & -> & _); [lia|].
  destruct (board s !! Z.to_nat (m - 1)) as [c|]; [|split; [done|by intros [_ ?]]].
  rewrite Ascii.eqb_eq. split; [intros ->; split; [lia|done]|by intros [_ [= ->]]].
Qed.

Lemma GenerateMoveList_elem (m : moveT) (s : stateT) :
  m ∈ TicTacToe.GenerateMoveList s <->
  1 <= m <= 9 /\ board s !! Z.to_nat (m - 1) = Some " "%char.
Proof.
  unfold TicTacToe.GenerateMoveList.
  rewrite list_elem_of_In, List.filter_In, MoveIsLegal_true.
  split; [tauto|]. intros [Hm Hc]. split; [|done]. by apply move_square.
Qed.

Lemma PlayerMark_not_blank (p : playerT) : TicTacToe.PlayerMark p <> " "%char.
Proof. by destruct p. Qed.

Lemma Opponent_involutive (p : playerT) :
  TicTacToe.Opponent (TicTacToe.Opponent p) = p.
Proof. by destruct p. Qed.

Lemma empty_squares_insert (b : Grid) (i : nat) (c : ascii) :
  b !! i = Some " "%char -> c <> " "%char ->
  S (TicTacToe.empty_squares (<[i:=c]> b)) = TicTacToe.empty_squares b.
Proof.
  intros Hb Hc. revert i Hb.
  induction b as [|x b IH]; intros [|i] Hb; simpl in *; try done.
  - injection Hb as ->. apply Ascii.eqb_neq in Hc. rewrite Hc. done.
  - rewrite <- (IH i Hb). destruct (Ascii.eqb x " "); simpl; reflexivity.
Qed.

Lemma empty_squares_lookup (b : Grid) :
  (0 < TicTacToe.empty_squares b)%nat ->
  exists i, (i < length b)%nat /\ b !! i = Some " "%char.
Proof.
  induction b as [|x b IH]; simpl; [lia|].
  destruct (Ascii.eqb_spec x " ") as [->|Hx]; intros H.
  - exists O. split; [lia|done].
  - destruct IH as (i & Hi & Hb); [simpl in H; lia|].
    exists (S i). split; [lia|done].
Qed.

Lemma MakeMove_board (s : stateT) (m : moveT) :
  m ∈ TicTacToe.GenerateMoveList s ->
  board (TicTacToe.MakeMove s m)
  = <[Z.to_nat (m - 1) := TicTacToe.PlayerMark (whoseTurn s)]> (board s).
Proof.
  intros [Hm _]%GenerateMoveList_elem. simpl. unfold TicTacToe.set_cell.
  by destruct (move_square m Hm) as (-> & -> & _).
Qed.

Lemma MakeMove_empty_squares (s : stateT) (m : moveT) :
  m ∈ TicTacToe.GenerateMoveList s ->
  S (TicTacToe.empty_squares (board (TicTacToe.MakeMove s m)))
  = TicTacToe.empty_squares (board s).
Proof.
  intros Hm. rewrite MakeMove_board by done.
  apply GenerateMoveList_elem in Hm as [_ Hc].
  apply empty_squares_insert; [done|apply PlayerMark_not_blank].
Qed.

Lemma static_in_landmarks (s : stateT) :
  LOSING_POSITION <= TicTacToe.EvaluateStaticPosition s <= WINNING_POSITION.
Proof.
  unfold TicTacToe.EvaluateStaticPosition.
  repeat destruct (TicTacToe.CheckForWin _ _);
    unfold LOSING_POSITION, WINNING_POSITION, NEUTRAL_POSITION; lia.
Qed.

Lemma legal_moves_available (s : stateT) :
  TicTacToe.legal_position s ->
  TicTacToe.GameIsOver s = false -> TicTacToe.GenerateMoveList s <> [].
Proof.
  intros [Hlen Hturns] Hover.
  unfold TicTacToe.GameIsOver in Hover.
  apply orb_false_iff in Hover as [Hover _].
  apply orb_false_iff in Hover as [Hnine _]. apply Z.eqb_neq in Hnine.
  destruct (empty_squares_lookup (board s)) as (i & Hi & Hb); [lia|].
  assert (Hin : (Z.of_nat i + 1) ∈ TicTacToe.GenerateMoveList s).
  { apply GenerateMoveList_elem. split; [lia|].
    by replace (Z.to_nat (Z.of_nat i + 1 - 1)) with i by lia. }
  intros Heq. rewrite Heq in Hin. by apply elem_of_nil in Hin.
Qed.

Lemma legal_retract_make (s : stateT) (m : moveT) :
  m ∈ TicTacToe.GenerateMoveList s ->
  TicTacToe.RetractMove (TicTacToe.MakeMove s m) m = s.
Proof.
  intros Hm. pose proof Hm as [Hr Hc]%GenerateMoveList_elem.
  unfold TicTacToe.RetractMove. rewrite MakeMove_board by done. simpl.
  unfold TicTacToe.set_cell. destruct (move_square m Hr) as (-> & -> & _).
  unfold Grid in *. rewrite list_insert_insert_eq, list_insert_id by done.
  rewrite Opponent_involutive. destruct s as [b p t]. simpl. f_equal. lia.
Qed.

Lemma legal_make (s : stateT) (m : moveT) :
  TicTacToe.legal_position s ->
  m ∈ TicTacToe.GenerateMoveList s ->
  TicTacToe.legal_position (TicTacToe.MakeMove s m).
Proof.
  intros [Hlen Hturns] Hm. split.
  - rewrite MakeMove_board by done. unfold Grid in *. by rewrite length_insert.
  - pose proof (MakeMove_empty_squares s m Hm) as He.
    change (turnsTaken (TicTacToe.MakeMove s m)) with (turnsTaken s + 1). lia.
Qed.

Lemma tictactoe_laws : AdapterLaws TicTacToe.adapter TicTacToe.legal_position.
Proof.
  split.
  - intros s _. apply static_in_landmarks.
  - apply legal_moves_available.
  - intros s m _. apply legal_retract_make.
  - apply legal_make.
Qed.

(** On a legal position the recursion needs no more fuel than the number of
    empty squares plus one, whatever the depth. *)
Lemma EvaluatePosition_empty_squares (n : nat) :
  forall (P : stateT) (d : Z),
    TicTacToe.legal_position P ->
    (TicTacToe.empty_squares (board P) + 1 <= n)%nat ->
    EvaluatePosition n P d = Some (evaluate_position P d, [])
    /\ EvaluatePosition_exhaustive n P d = Some (evaluate_position P d, [])
    /\ LOSING_POSITION <= evaluate_position P d <= WINNING_POSITION.
Proof.
  induction n as [|n IH]; intros P d HP Hn; [lia|].
  apply (EvaluatePosition_step (L:=tictactoe_laws)); [done|].
  intros Hover Hd m Hm. apply IH; [by apply legal_make|].
  pose proof (MakeMove_empty_squares P m Hm).
  change (MakeMove P m) with (TicTacToe.MakeMove P m). lia.
Qed.

End TicTacToeFacts.

(** * Properties of the search *)

(** C1.  On a position with at least one legal move, [FindBestMove] returns a
    move of the generated list; the rating it stores is the negated rating
    of the child that move leads to, no other move of the list leads to a
    better rating for the side to move, and every move listed before the
    returned one is strictly worse, so that among the best moves the first
    in enumeration order is returned.  The adapter keeps its contract and
    [P] is a position of the game; the statement needs neither that [P] is
    not terminal nor that the depth is non-negative. *)
Theorem FindBestMove_first_best (A : Adapter) (Inv : stateT -> Prop)
    (L : AdapterLaws A Inv) (P : stateT) (depth : Z) :
  Inv P ->
  GenerateMoveList P <> [] ->
  exists pre move post,
    GenerateMoveList P = pre ++ move :: post
    /\ (forall n, (fuel_of (depth + 1) <= n)%nat ->
          FindBestMove n P depth
          = Some (Some move, - evaluate_position (MakeMove P move) (depth + 1), []))
    /\ find_best_move P depth
       = (Some move, - evaluate_position (MakeMove P move) (depth + 1))
    /\ (forall m, m ∈ GenerateMoveList P ->
          - evaluate_position (MakeMove P m) (depth + 1)
          <= - evaluate_position (MakeMove P move) (depth + 1))
    /\ (forall m, m ∈ pre ->
          - evaluate_position (MakeMove P m) (depth + 1)
          < - evaluate_position (MakeMove P move) (depth + 1)).
Proof.
  intros HP Hne.
  destruct (find_best_move_choice (L:=L) P depth HP Hne)
    as (pre & mv & post & Hmoves & Hrun & Hf & _ & Hmin & Hpre).
  exists pre, mv, post. split; [done|]. split; [|split; [done|split]].
  - intros n Hn. by apply Hrun.
  - intros m Hm. specialize (Hmin m Hm). lia.
  - intros m Hm. specialize (Hpre m Hm). lia.
Qed.

(** C2.  On a position of the game that is not terminal, at a depth below
    [MAX_DEPTH], the search returns, and the rating of the position is the
    negation of the minimum of the ratings of its children at the next
    depth: the negated rating is attained by a legal move and is a lower
    bound of the rating of every child. *)
Theorem negamax_equation (A : Adapter) (Inv : stateT -> Prop)
    (L : AdapterLaws A Inv) (P : stateT) (d : Z) :
  Inv P ->
  GameIsOver P = false ->
  d < MAX_DEPTH ->
  (forall n, (fuel_of d <= n)%nat ->
     EvaluatePosition n P d = Some (evaluate_position P d, []))
  /\ (exists M, M ∈ GenerateMoveList P
        /\ evaluate_position P d = - evaluate_position (MakeMove P M) (d + 1))
  /\ (forall M, M ∈ GenerateMoveList P ->
        - evaluate_position P d <= evaluate_position (MakeMove P M) (d + 1)).
Proof.
  intros HP Hover Hd.
  split; [intros n Hn; by apply (EvaluatePosition_agree n)|].
  pose proof (moves_available P HP Hover) as Hne.
  destruct (find_best_move_choice (L:=L) P d HP Hne)
    as (pre & mv & post & Hmoves & _ & Hf & _ & Hmin & _).
  assert (Hval : evaluate_position P d = - evaluate_position (MakeMove P mv) (d + 1)).
  { rewrite evaluate_position_unfold, Hover, Hf. simpl.
    by rewrite (proj2 (Z.leb_gt _ _) Hd). }
  split.
  - exists mv. split; [|done]. rewrite Hmoves, elem_of_app, elem_of_cons. tauto.
  - intros M HM. specialize (Hmin M HM). lia.
Qed.

(** C3.  [EvaluatePosition] returns the static evaluation of the adapter
    exactly when the position is terminal or the depth has reached
    [MAX_DEPTH], and then it makes no nested call: one unit of fuel
    suffices, and one unit of fuel yields the static evaluation in no other
    case.  Otherwise it runs [FindBestMove] on the same position and depth,
    drops the move and returns the rating. *)
Theorem EvaluatePosition_cases (A : Adapter) (P : stateT) (d : Z) :
  (forall n,
     EvaluatePosition (S n) P d
     = if GameIsOver P || (MAX_DEPTH <=? d)
       then Some (EvaluateStaticPosition P, [])
       else let* (_, rating) := FindBestMove n P d in ret rating)
  /\ evaluate_position P d
     = (if GameIsOver P || (MAX_DEPTH <=? d) then EvaluateStaticPosition P
        else snd (find_best_move P d))
  /\ (GameIsOver P || (MAX_DEPTH <=? d) = true
      <-> GameIsOver P = true \/ MAX_DEPTH <= d)
  /\ (EvaluatePosition 1 P d = Some (EvaluateStaticPosition P, [])
      <-> GameIsOver P = true \/ MAX_DEPTH <= d).
Proof.
  assert (Hc : GameIsOver P || (MAX_DEPTH <=? d) = true
               <-> GameIsOver P = true \/ MAX_DEPTH <= d).
  { by rewrite orb_true_iff, Z.leb_le. }
  split; [done|]. split; [apply evaluate_position_unfold|]. split; [done|].
  rewrite <- Hc, EvaluatePosition_S.
  destruct (GameIsOver P || (MAX_DEPTH <=? d)); [done|].
  split; [|done]. unfold FindBestMove, FindBestMove_with.
  destruct (GenerateMoveList P) as [|m rest]; simpl; [done|].
  unfold bind. simpl. done.
Qed.

(** C4.  The landmarks are 1000, 0 and -1000, and on a position of the game
    the search returns a rating between [LOSING_POSITION] and
    [WINNING_POSITION], at depth 0 and at every other depth. *)
Theorem rating_within_landmarks (A : Adapter) (Inv : stateT -> Prop)
    (L : AdapterLaws A Inv) (P : stateT) :
  Inv P ->
  (WINNING_POSITION = 1000 /\ NEUTRAL_POSITION = 0
   /\ LOSING_POSITION = - WINNING_POSITION)
  /\ (forall n, (fuel_of 0 <= n)%nat ->
        EvaluatePosition n P 0 = Some (evaluate_position P 0, []))
  /\ LOSING_POSITION <= evaluate_position P 0 <= WINNING_POSITION
  /\ (forall d, LOSING_POSITION <= evaluate_position P d <= WINNING_POSITION).
Proof.
  intros HP. split; [done|]. split; [|split].
  - intros n Hn. by apply (EvaluatePosition_agree n).
  - by apply evaluate_position_bounds.
  - intros d. by apply evaluate_position_bounds.
Qed.

(** C5.  On a position of the game with at least one legal move, the move
    and the rating [FindBestMove] returns are those of the exhaustive
    search, which tries every move of the list at every level.  The early
    exit is the only thing the loop leaves out: whatever the evaluation of a
    child prints, the loop is the exhaustive loop run on the moves up to and
    including the first one whose child is rated [LOSING_POSITION]. *)
Theorem early_exit_sound (A : Adapter) (Inv : stateT -> Prop)
    (L : AdapterLaws A Inv) (P : stateT) (d : Z) :
  Inv P ->
  GenerateMoveList P <> [] ->
  find_best_move P d = find_best_move_exhaustive P d
  /\ (forall n, (fuel_of (d + 1) <= n)%nat ->
        FindBestMove n P d = Some (find_best_move P d, [])
        /\ FindBestMove_exhaustive n P d = Some (find_best_move P d, []))
  /\ (forall (eval : stateT -> Z -> M Z) (out : moveT -> list string),
        (forall m, m ∈ GenerateMoveList P ->
           eval (MakeMove P m) (d + 1)
           = Some (evaluate_position (MakeMove P m) (d + 1), out m)) ->
        move_loop eval (GenerateMoveList P) P d None (WINNING_POSITION + 1)
        = move_loop_exhaustive eval
            (through_first_loss
               (fun m => evaluate_position (MakeMove P m) (d + 1))
               (GenerateMoveList P))
            P d None (WINNING_POSITION + 1)).
Proof.
  intros HP Hne.
  destruct (find_best_move_choice (L:=L) P d HP Hne)
    as (pre & mv & post & _ & Hrun & Hf & Hx & _).
  split; [by rewrite Hf, Hx|]. split.
  - intros n Hn. rewrite Hf. by apply Hrun.
  - intros eval out Hev.
    apply (move_loop_through_first_loss eval _ out).
    + intros m Hm. split; [by apply Hev|by apply (retract_make (Inv:=Inv))].
    + intros m Hm. apply (evaluate_position_bounds (L:=L)). by apply make_inv.
    + unfold LOSING_POSITION, WINNING_POSITION. lia.
Qed.

(** C7.  On a position with no legal move [FindBestMove] does not stop the
    program: whatever the fuel and the depth, it prints the one string
    "No moves available", returns with [bestMove] never assigned, and stores
    the rating [-(WINNING_POSITION + 1) = -1001], which is below
    [LOSING_POSITION]. *)
Theorem FindBestMove_no_moves (A : Adapter) (P : stateT) (d : Z) (n : nat) :
  GenerateMoveList P = [] ->
  FindBestMove n P d = Some (None, -1001, ["No moves available"%string])
  /\ find_best_move P d = (None, -1001)
  /\ -1001 = - (WINNING_POSITION + 1)
  /\ -1001 < LOSING_POSITION.
Proof.
  intros Hnil.
  assert (Hrun : forall k, FindBestMove k P d
                           = Some (None, -1001, ["No moves available"%string])).
  { intros k. unfold FindBestMove, FindBestMove_with. by rewrite Hnil. }
  split; [apply Hrun|]. split; [|done].
  unfold find_best_move. by rewrite Hrun.
Qed.

(** C8.  A call of [FindBestMove] or of [EvaluatePosition] on the position
    [P] returns, and the position of the caller after the call is [P] in
    all its fields; no run of either call, on any fuel, leaves the caller
    with another position.  This holds for every adapter: both procedures
    receive the position by value.  When the adapter keeps its contract the
    working copy inside [FindBestMove] is [P] again, too, once the loop has
    ended. *)
Theorem caller_position_unchanged (A : Adapter) (P : stateT) (d : Z) (k : nat) :
  (exists result out,
     call_FindBestMove (fuel_of (d + 1) + k) P d = Some (P, result, out))
  /\ (exists rating out,
        call_EvaluatePosition (fuel_of d + k) P d = Some (P, rating, out))
  /\ (forall n P' result out,
        call_FindBestMove n P d = Some (P', result, out) ->
        P' = P /\ board P' = board P /\ whoseTurn P' = whoseTurn P
        /\ turnsTaken P' = turnsTaken P)
  /\ (forall n P' rating out,
        call_EvaluatePosition n P d = Some (P', rating, out) ->
        P' = P /\ board P' = board P /\ whoseTurn P' = whoseTurn P
        /\ turnsTaken P' = turnsTaken P)
  /\ (forall Inv n, AdapterLaws A Inv -> Inv P -> (fuel_of (d + 1) <= n)%nat ->
        exists bestMove minRating,
          move_loop (EvaluatePosition n) (GenerateMoveList P) P d None
            (WINNING_POSITION + 1)
          = Some (bestMove, minRating, P, [])).
Proof.
  split; [|split; [|split; [|split]]];
    [| | | |intros Inv n L HP Hn; by apply (working_copy_restored (L:=L))].
  - destruct (FindBestMove_total (fuel_of (d + 1) + k) P d) as [[r out] Hr]; [lia|].
    exists r, out. unfold call_FindBestMove. rewrite Hr. simpl.
    by rewrite app_nil_r.
  - destruct (EvaluatePosition_total (fuel_of d + k) P d) as [[r out] Hr]; [lia|].
    exists r, out. unfold call_EvaluatePosition. rewrite Hr. simpl.
    by rewrite app_nil_r.
  - intros n P' r out. unfold call_FindBestMove. rewrite bind_Some.
    intros (x & o1 & o2 & _ & [= <- _ _] & _). done.
  - intros n P' r out. unfold call_EvaluatePosition. rewrite bind_Some.
    intros (x & o1 & o2 & _ & [= <- _ _] & _). done.
Qed.

(** C10.  On a position of the game with at least one legal move, every
    child is rated at most [WINNING_POSITION], as is every position of the
    game, and that is below the sentinel [WINNING_POSITION + 1]; hence the
    first iteration of the loop records the first move of the list, and
    [FindBestMove] returns a move that was assigned. *)
Theorem bestMove_initialised (A : Adapter) (Inv : stateT -> Prop)
    (L : AdapterLaws A Inv) (P : stateT) (d : Z) :
  Inv P ->
  GenerateMoveList P <> [] ->
  (forall m, m ∈ GenerateMoveList P ->
     evaluate_position (MakeMove P m) (d + 1) <= WINNING_POSITION
     /\ WINNING_POSITION < WINNING_POSITION + 1)
  /\ (exists m0 rest,
        GenerateMoveList P = m0 :: rest
        /\ forall n, (fuel_of (d + 1) <= n)%nat ->
             move_loop (EvaluatePosition n) (m0 :: rest) P d None
               (WINNING_POSITION + 1)
             = move_loop (EvaluatePosition n) rest P d (Some m0)
                 (evaluate_position (MakeMove P m0) (d + 1)))
  /\ (exists move, forall n, (fuel_of (d + 1) <= n)%nat ->
        exists rating, FindBestMove n P d = Some (Some move, rating, []))
  /\ (forall P' d', Inv P' -> evaluate_position P' d' <= WINNING_POSITION).
Proof.
  intros HP Hne.
  assert (Hup : forall m, m ∈ GenerateMoveList P ->
            evaluate_position (MakeMove P m) (d + 1) <= WINNING_POSITION).
  { intros m Hm. apply (evaluate_position_bounds (L:=L)). by apply make_inv. }
  split; [|split; [|split]];
    [| | |intros P' d' HP'; by apply (evaluate_position_bounds (L:=L))].
  - intros m Hm. split; [by apply Hup|lia].
  - destruct (GenerateMoveList P) as [|m0 rest] eqn:Hmoves; [done|].
    exists m0, rest. split; [done|]. intros n Hn.
    assert (Hm0 : m0 ∈ GenerateMoveList P).
    { rewrite Hmoves, elem_of_cons. by left. }
    destruct (children_known (L:=L) n P d HP Hn m0 Hm0) as [[Hev Hrt] _].
    simpl. rewrite Hev, Hrt. unfold bind.
    specialize (Hup m0).
    destruct (Z.ltb_spec (evaluate_position (MakeMove P m0) (d + 1))
                (WINNING_POSITION + 1)) as [_|Hge].
    + by destruct (move_loop _ rest P d (Some m0) _) as [[x o]|].
    + specialize (Hup ltac:(rewrite elem_of_cons; by left)). lia.
  - destruct (find_best_move_choice (L:=L) P d HP Hne)
      as (pre & mv & post & _ & Hrun & _).
    exists mv. intros n Hn. eexists. by apply Hrun.
Qed.

(** ** Tic-tac-toe: the empty board and the depth of the recursion *)

Section TicTacToeSearch.

#[local] Existing Instance TicTacToe.adapter.

Lemma select_move_ext (rate1 rate2 : moveT -> Z) (moves : list moveT) :
  (forall m, m ∈ moves -> rate1 m = rate2 m) ->
  forall b mn, select_move rate1 moves b mn = select_move rate2 moves b mn.
Proof.
  induction moves as [|m rest IH]; intros Hext b mn; simpl; [done|].
  rewrite <- (Hext m) by (rewrite elem_of_cons; by left).
  destruct (rate1 m <? mn); apply IH; intros m' Hm'; apply Hext;
    rewrite elem_of_cons; by right.
Qed.

Lemma empty_squares_le_length (b : Grid) :
  (TicTacToe.empty_squares b <= length b)%nat.
Proof.
  induction b as [|c b IH]; simpl; [done|].
  destruct (Ascii.eqb c " "); lia.
Qed.

(** As long as the depth plus the number of empty squares does not exceed
    [MAX_DEPTH], the rating of a legal position does not depend on the
    depth: the cap is not what ends the recursion. *)
Lemma tictactoe_depth_irrelevant (e : nat) :
  forall (P : stateT) (d d' : Z),
    TicTacToe.legal_position P ->
    TicTacToe.empty_squares (board P) = e ->
    d + Z.of_nat e <= MAX_DEPTH ->
    d' + Z.of_nat e <= MAX_DEPTH ->
    evaluate_position P d = evaluate_position P d'.
Proof.
  induction e as [|e IH]; intros P d d' HP He Hd Hd';
    rewrite !evaluate_position_unfold;
    destruct (GameIsOver P) eqn:Hover; simpl; try done;
    pose proof (legal_moves_available P HP Hover) as Hne.
  - destruct (TicTacToe.GenerateMoveList P) as [|m rest] eqn:Hmoves; [done|].
    assert (Hm : m ∈ TicTacToe.GenerateMoveList P).
    { rewrite Hmoves, elem_of_cons. by left. }
    pose proof (MakeMove_empty_squares P m Hm). lia.
  - rewrite (proj2 (Z.leb_gt MAX_DEPTH d)), (proj2 (Z.leb_gt MAX_DEPTH d')) by lia.
    destruct (find_best_move_select (L:=tictactoe_laws) P d HP Hne) as [-> _].
    destruct (find_best_move_select (L:=tictactoe_laws) P d' HP Hne) as [-> _].
    simpl. f_equal. f_equal. apply select_move_ext. intros m Hm.
    apply IH; [by apply legal_make| |lia|lia].
    pose proof (MakeMove_empty_squares P m Hm) as Hs.
    change (MakeMove P m) with (TicTacToe.MakeMove P m). lia.
Qed.

(** C9.  On a legal tic-tac-toe position, at every starting depth, the
    mutual recursion returns as soon as calls of [EvaluatePosition] may nest
    to the number of empty squares plus one, which is at most ten; and when
    the depth plus the number of empty squares does not exceed [MAX_DEPTH],
    as from depth 0, the rating is the same at every such depth, so the cap
    is not what ends the recursion. *)
Theorem tictactoe_recursion_bounded (P : stateT) (depth : Z) (n : nat) :
  TicTacToe.legal_position P ->
  (TicTacToe.empty_squares (board P) + 1 <= n)%nat ->
  EvaluatePosition n P depth = Some (evaluate_position P depth, [])
  /\ (exists out, FindBestMove n P depth = Some (find_best_move P depth, out))
  /\ (TicTacToe.empty_squares (board P) + 1 <= 10)%nat
  /\ (forall d',
        depth + Z.of_nat (TicTacToe.empty_squares (board P)) <= MAX_DEPTH ->
        d' + Z.of_nat (TicTacToe.empty_squares (board P)) <= MAX_DEPTH ->
        evaluate_position P depth = evaluate_position P d').
Proof.
  intros HP Hn. split; [by apply EvaluatePosition_empty_squares|].
  split; [|split].
  - cut (exists r out, FindBestMove n P depth = Some (r, out)).
    { intros (r & out & Hr). exists out.
      by rewrite (FindBestMove_Some_value _ _ _ _ _ Hr). }
    destruct (GenerateMoveList P) as [|m0 rest] eqn:Hmoves.
    + unfold FindBestMove, FindBestMove_with. rewrite Hmoves. simpl. eauto.
    + unfold FindBestMove.
      rewrite (FindBestMove_with_known _
                 (fun m => evaluate_position (MakeMove P m) (depth + 1))
                 (fun _ => [])); [simpl; eauto|by rewrite Hmoves| |].
      * intros m Hm. split; [|by apply legal_retract_make].
        apply EvaluatePosition_empty_squares; [by apply legal_make|].
        pose proof (MakeMove_empty_squares P m Hm).
        change (MakeMove P m) with (TicTacToe.MakeMove P m). lia.
      * intros m Hm. apply (evaluate_position_bounds (L:=tictactoe_laws)).
        by apply legal_make.
  - destruct HP as [Hlen _]. pose proof (empty_squares_le_length (board P)). lia.
  - intros d' Hd Hd'. by eapply tictactoe_depth_irrelevant.
Qed.

(** C6.  On the empty board with the computer to move, at depth 0, the
    search returns [NEUTRAL_POSITION]: neither side can force a win.  The
    move it picks is square 1. *)
Theorem empty_board_is_draw :
  whoseTurn TicTacToe.NewGame = Computer
  /\ TicTacToe.empty_squares (board TicTacToe.NewGame) = 9%nat
  /\ FindBestMove 9 TicTacToe.NewGame 0 = Some (Some 1, NEUTRAL_POSITION, [])
  /\ EvaluatePosition 10 TicTacToe.NewGame 0 = Some (NEUTRAL_POSITION, [])
  /\ evaluate_position TicTacToe.NewGame 0 = NEUTRAL_POSITION.
Proof.
  assert (Hfind : FindBestMove 9 TicTacToe.NewGame 0
                  = Some (Some 1, NEUTRAL_POSITION, [])).
  { vm_compute. reflexivity. }
  assert (Heval : EvaluatePosition 10 TicTacToe.NewGame 0
                  = Some (NEUTRAL_POSITION, [])).
  { apply (EvaluatePosition_of_FindBestMove 9 _ _ (Some 1));
      [reflexivity|reflexivity|exact Hfind]. }
  split; [reflexivity|]. split; [reflexivity|]. split; [exact Hfind|].
  split; [exact Heval|].
  exact (EvaluatePosition_Some_value 10 _ _ _ [] Heval).
Qed.

End TicTacToeSearch.

(** ** The scenarios of the spec, and the theorems at concrete positions *)

Section Scenarios.

#[local] Existing Instance TicTacToe.adapter.

(** S3: with [X X . / O O . / . . .] the computer completes its row. *)
Example scenario_S3 :
  TicTacToe.ChooseComputerMove TicTacToe.position_S3 = Some 3
  /\ find_best_move TicTacToe.position_S3 0 = (Some 3, WINNING_POSITION).
Proof. vm_compute. split; reflexivity. Qed.

(** S4: with [O O . / X . . / . . X] the computer blocks on square 3, and
    the rating is not below neutral. *)
Example scenario_S4 :
  TicTacToe.ChooseComputerMove TicTacToe.position_S4 = Some 3
  /\ find_best_move TicTacToe.position_S4 0 = (Some 3, WINNING_POSITION).
Proof. vm_compute. split; reflexivity. Qed.

(** S5: a full board with no winner is over and rated neutral. *)
Example scenario_S5 :
  GameIsOver TicTacToe.position_S5 = true
  /\ EvaluateStaticPosition TicTacToe.position_S5 = NEUTRAL_POSITION.
Proof. split; reflexivity. Qed.

(** Why the theorems speak of legal positions: on a full board whose turn
    counter is wrong the game is not over, no move is left, and the search
    stores the rating -1001. *)
Example turn_counter_matters :
  ~ TicTacToe.legal_position TicTacToe.miscounted_S5
  /\ GameIsOver TicTacToe.miscounted_S5 = false
  /\ EvaluatePosition 1 TicTacToe.miscounted_S5 0
     = Some (-1001, ["No moves available"%string]).
Proof.
  split; [|split; reflexivity]. intros [_ Hturns]. vm_compute in Hturns.
  discriminate.
Qed.

Lemma FindBestMove_first_best_witness :
  TicTacToe.legal_position TicTacToe.position_S3
  /\ GenerateMoveList TicTacToe.position_S3 <> []
  /\ exists pre move post,
       GenerateMoveList TicTacToe.position_S3 = pre ++ move :: post
       /\ find_best_move TicTacToe.position_S3 0
          = (Some move,
             - evaluate_position (MakeMove TicTacToe.position_S3 move) (0 + 1)).
Proof.
  assert (HP : TicTacToe.legal_position TicTacToe.position_S3)
    by (split; reflexivity).
  assert (Hne : GenerateMoveList TicTacToe.position_S3 <> [])
    by (vm_compute; discriminate).
  split; [exact HP|]. split; [exact Hne|].
  destruct (FindBestMove_first_best TicTacToe.adapter TicTacToe.legal_position
              tictactoe_laws TicTacToe.position_S3 0 HP Hne)
    as (pre & move & post & Hmoves & _ & Hf & _).
  exists pre, move, post. split; assumption.
Defined.

Lemma negamax_equation_witness :
  TicTacToe.legal_position TicTacToe.position_S3
  /\ GameIsOver TicTacToe.position_S3 = false
  /\ 0 < MAX_DEPTH
  /\ exists M, M ∈ GenerateMoveList TicTacToe.position_S3
       /\ evaluate_position TicTacToe.position_S3 0
          = - evaluate_position (MakeMove TicTacToe.position_S3 M) (0 + 1).
Proof.
  assert (HP : TicTacToe.legal_position TicTacToe.position_S3)
    by (split; reflexivity).
  assert (Hover : GameIsOver TicTacToe.position_S3 = false) by reflexivity.
  assert (Hd : 0 < MAX_DEPTH) by reflexivity.
  split; [exact HP|]. split; [exact Hover|]. split; [exact Hd|].
  exact (proj1 (proj2 (negamax_equation TicTacToe.adapter
                         TicTacToe.legal_position tictactoe_laws
                         TicTacToe.position_S3 0 HP Hover Hd))).
Defined.

Lemma rating_within_landmarks_witness :
  TicTacToe.legal_position TicTacToe.position_S4
  /\ LOSING_POSITION <= evaluate_position TicTacToe.position_S4 0
     <= WINNING_POSITION.
Proof.
  assert (HP : TicTacToe.legal_position TicTacToe.position_S4)
    by (split; reflexivity).
  split; [exact HP|].
  exact (proj1 (proj2 (proj2 (rating_within_landmarks TicTacToe.adapter
                                TicTacToe.legal_position tictactoe_laws
                                TicTacToe.position_S4 HP)))).
Defined.

Lemma early_exit_sound_witness :
  TicTacToe.legal_position TicTacToe.position_S3
  /\ GenerateMoveList TicTacToe.position_S3 <> []
  /\ find_best_move TicTacToe.position_S3 0
     = find_best_move_exhaustive TicTacToe.position_S3 0.
Proof.
  assert (HP : TicTacToe.legal_position TicTacToe.position_S3)
    by (split; reflexivity).
  assert (Hne : GenerateMoveList TicTacToe.position_S3 <> [])
    by (vm_compute; discriminate).
  split; [exact HP|]. split; [exact Hne|].
  exact (proj1 (early_exit_sound TicTacToe.adapter TicTacToe.legal_position
                  tictactoe_laws TicTacToe.position_S3 0 HP Hne)).
Defined.

Lemma FindBestMove_no_moves_witness :
  GenerateMoveList TicTacToe.position_S5 = []
  /\ FindBestMove 0 TicTacToe.position_S5 0
     = Some (None, -1001, ["No moves available"%string]).
Proof.
  assert (Hnil : GenerateMoveList TicTacToe.position_S5 = []) by reflexivity.
  split; [exact Hnil|].
  exact (proj1 (FindBestMove_no_moves TicTacToe.adapter TicTacToe.position_S5
                  0 0 Hnil)).
Defined.

Lemma tictactoe_recursion_bounded_witness :
  TicTacToe.legal_position TicTacToe.position_S3
  /\ (TicTacToe.empty_squares (board TicTacToe.position_S3) + 1 <= 6)%nat
  /\ EvaluatePosition 6 TicTacToe.position_S3 0
     = Some (evaluate_position TicTacToe.position_S3 0, []).
Proof.
  assert (HP : TicTacToe.legal_position TicTacToe.position_S3)
    by (split; reflexivity).
  assert (Hn : (TicTacToe.empty_squares (board TicTacToe.position_S3) + 1 <= 6)%nat)
    by (vm_compute; lia).
  split; [exact HP|]. split; [exact Hn|].
  exact (proj1 (tictactoe_recursion_bounded TicTacToe.position_S3 0 6 HP Hn)).
Defined.

Lemma bestMove_initialised_witness :
  TicTacToe.legal_position TicTacToe.position_S4
  /\ GenerateMoveList TicTacToe.position_S4 <> []
  /\ exists move, forall n, (fuel_of (0 + 1) <= n)%nat ->
       exists rating,
         FindBestMove n TicTacToe.position_S4 0 = Some (Some move, rating, []).
Proof.
  assert (HP : TicTacToe.legal_position TicTacToe.position_S4)
    by (split; reflexivity).
  assert (Hne : GenerateMoveList TicTacToe.position_S4 <> [])
    by (vm_compute; discriminate).
  split; [exact HP|]. split; [exact Hne|].
  exact (proj1 (proj2 (proj2 (bestMove_initialised TicTacToe.adapter
                                TicTacToe.legal_position tictactoe_laws
                                TicTacToe.position_S4 0 HP Hne)))).
Defined.

End Scenarios.

(** * Further properties of the engine, for every adapter *)

Section EngineAnyAdapter.

Context {A : Adapter}.

(** What the loop leaves in [bestMove] and [minRating]: the minimum never
    grows, and either nothing changed or a move of the list was recorded and
    the minimum went down. *)
Lemma move_loop_result (eval : stateT -> Z -> M Z) (moves : list moveT) :
  forall s d b mn b' mn' s' out,
    move_loop eval moves s d b mn = Some (b', mn', s', out) ->
    (b' = b /\ mn' = mn)
    \/ (exists m, m ∈ moves /\ b' = Some m /\ mn' < mn).
Proof.
  induction moves as [|m rest IH]; intros s d b mn b' mn' s' out; simpl.
  - intros [= <- <- _ _]. by left.
  - destruct (mn =? LOSING_POSITION); [intros [= <- <- _ _]; by left|].
    rewrite bind_Some. intros (c & o1 & o2 & _ & Hk & _).
    destruct (Z.ltb_spec c mn) as [Hlt|Hge]; apply IH in Hk.
    + right. destruct Hk as [[-> ->]|(m' & Hm' & -> & Hlow)].
      * exists m. rewrite elem_of_cons. split; [by left|done].
      * exists m'. rewrite elem_of_cons. split; [by right|]. split; [done|lia].
    + destruct Hk as [[-> ->]|(m' & Hm' & -> & Hlow)]; [by left|right].
      exists m'. rewrite elem_of_cons. split; [by right|done].
Qed.

Lemma FindBestMove_with_result (eval : stateT -> Z -> M Z) (P : stateT) (d : Z)
    (b : option moveT) (r : Z) (out : list string) :
  FindBestMove_with eval P d = Some (b, r, out) ->
  (b = None /\ r = -1001)
  \/ (exists m, m ∈ GenerateMoveList P /\ b = Some m /\ -1001 < r).
Proof.
  unfold FindBestMove_with. rewrite bind_Some.
  intros (u & o1 & o2 & _ & Hk & _). revert Hk. rewrite bind_Some.
  intros ([[b' mn'] s'] & o3 & o4 & Hloop & [= <- <- _] & _).
  apply move_loop_result in Hloop.
  destruct Hloop as [[-> ->]|(m & Hm & -> & Hlow)]; [by left|right].
  exists m. split; [done|]. split; [done|].
  unfold WINNING_POSITION in Hlow. lia.
Qed.

Lemma find_best_move_run (P : stateT) (d : Z) :
  exists out,
    FindBestMove (fuel_of (d + 1)) P d = Some (find_best_move P d, out).
Proof. by apply FindBestMove_value. Qed.

(** The loop sees its evaluator at the next depth only. *)
Lemma move_loop_ext (eval1 eval2 : stateT -> Z -> M Z) (d : Z) :
  (forall s, eval1 s (d + 1) = eval2 s (d + 1)) ->
  forall moves s b mn,
    move_loop eval1 moves s d b mn = move_loop eval2 moves s d b mn.
Proof.
  intros Hext. induction moves as [|m rest IH]; intros s b mn; simpl; [done|].
  destruct (mn =? LOSING_POSITION); [done|].
  rewrite Hext. unfold bind.
  destruct (eval2 (MakeMove s m) (d + 1)) as [[c o]|]; [|done].
  destruct (c <? mn); by rewrite IH.
Qed.

(** Nothing but the diagnostic of [FindBestMove] is ever printed. *)
Lemma move_loop_output (eval : stateT -> Z -> M Z) (msg : string) :
  (forall s d r o, eval s d = Some (r, o) -> Forall (eq msg) o) ->
  forall moves s d b mn x out,
    move_loop eval moves s d b mn = Some (x, out) -> Forall (eq msg) out.
Proof.
  intros Hev. induction moves as [|m rest IH]; intros s d b mn x out; simpl.
  - intros [= _ <-]. constructor.
  - destruct (mn =? LOSING_POSITION); [intros [= _ <-]; constructor|].
    rewrite bind_Some. intros (c & o1 & o2 & Hc & Hk & ->).
    apply Forall_app. split; [by eapply Hev|].
    destruct (c <? mn); by eapply IH.
Qed.

Lemma FindBestMove_with_output (eval : stateT -> Z -> M Z) :
  (forall s d r o, eval s d = Some (r, o) ->
     Forall (eq "No moves available"%string) o) ->
  forall P d x out,
    FindBestMove_with eval P d = Some (x, out) ->
    Forall (eq "No moves available"%string) out.
Proof.
  intros Hev P d x out. unfold FindBestMove_with. rewrite bind_Some.
  intros (u & o1 & o2 & Hu & Hk & ->). revert Hk. rewrite bind_Some.
  intros (v & o3 & o4 & Hloop & Hret & ->).
  apply Forall_app. split.
  - destruct (_ =? 0); injection Hu as _ <-; repeat constructor.
  - apply Forall_app. split; [by eapply move_loop_output|].
    destruct v as [[b mn] s']. injection Hret as _ <-. constructor.
Qed.

Lemma EvaluatePosition_output (n : nat) :
  forall P d r out,
    EvaluatePosition n P d = Some (r, out) ->
    Forall (eq "No moves available"%string) out.
Proof.
  induction n as [|n IH]; intros P d r out; [done|].
  rewrite EvaluatePosition_S.
  destruct (GameIsOver P || (MAX_DEPTH <=? d)); [intros [= _ <-]; constructor|].
  rewrite bind_Some. intros (v & o1 & o2 & Hf & Hret & ->).
  apply Forall_app. split.
  - eapply FindBestMove_with_output; [|exact Hf]. exact IH.
  - destruct v as [b r']. injection Hret as _ <-. constructor.
Qed.

End EngineAnyAdapter.

(** X1.  Whatever the game, the depth cap ends the recursion: at depth [d]
    calls of [EvaluatePosition] nest at most [MAX_DEPTH - d + 1] deep, and
    below [FindBestMove] at most [MAX_DEPTH - (d + 1) + 1] deep; from depth
    [MAX_DEPTH] on [EvaluatePosition] makes no nested call at all, and from
    depth [MAX_DEPTH - 1] on the children of [FindBestMove] make none. *)
Theorem depth_cap_ends_recursion (A : Adapter) (P : stateT) (d : Z) (k : nat) :
  is_Some (EvaluatePosition (S (Z.to_nat (MAX_DEPTH - d)) + k) P d)
  /\ is_Some (FindBestMove (S (Z.to_nat (MAX_DEPTH - (d + 1))) + k) P d)
  /\ (MAX_DEPTH <= d ->
      EvaluatePosition (1 + k) P d = Some (EvaluateStaticPosition P, []))
  /\ (MAX_DEPTH <= d + 1 -> is_Some (FindBestMove (1 + k) P d)).
Proof.
  split; [|split; [|split]].
  - apply EvaluatePosition_total. unfold fuel_of. lia.
  - apply FindBestMove_total. unfold fuel_of. lia.
  - intros Hd. rewrite EvaluatePosition_S.
    by rewrite (proj2 (Z.leb_le _ _) Hd), orb_true_r.
  - intros Hd. apply FindBestMove_total. unfold fuel_of. lia.
Qed.

(** X2.  For every adapter, a move [FindBestMove] returns was taken from the
    list [GenerateMoveList] produced for the position: no run, on any fuel,
    returns an assigned move from elsewhere. *)
Theorem returned_move_is_generated (A : Adapter) (P : stateT) (d : Z) :
  (forall n m r out,
     FindBestMove n P d = Some (Some m, r, out) -> m ∈ GenerateMoveList P)
  /\ (forall m, fst (find_best_move P d) = Some m -> m ∈ GenerateMoveList P).
Proof.
  assert (Hrun : forall n m r out,
            FindBestMove n P d = Some (Some m, r, out) -> m ∈ GenerateMoveList P).
  { intros n m r out Hf. apply FindBestMove_with_result in Hf.
    destruct Hf as [[[=] _]|(m' & Hm' & [= ->] & _)]. done. }
  split; [exact Hrun|]. intros m Hm.
  destruct (find_best_move_run P d) as [out Hf].
  destruct (find_best_move P d) as [b r]. simpl in Hm. subst b.
  by eapply Hrun.
Qed.


(** X4.  For every adapter, all that a run of [EvaluatePosition] or of
    [FindBestMove] writes to the console is the string "No moves available",
    possibly several times: the search prints nothing else. *)
Theorem only_diagnostic_printed (A : Adapter) (n : nat) (P : stateT) (d : Z) :
  (forall r out,
     EvaluatePosition n P d = Some (r, out) ->
     Forall (eq "No moves available"%string) out)
  /\ (forall x out,
        FindBestMove n P d = Some (x, out) ->
        Forall (eq "No moves available"%string) out).
Proof.
  split.
  - intros r out. apply EvaluatePosition_output.
  - intros x out. apply FindBestMove_with_output. apply EvaluatePosition_output.
Qed.

(** X5.  At the last ply before the cap, that is, from depth [MAX_DEPTH - 1]
    on, [FindBestMove] is a one-move look-ahead for every adapter: it rates
    each child by [EvaluateStaticPosition] and searches no deeper. *)
Theorem last_ply_is_static (A : Adapter) (P : stateT) (d : Z) (n : nat) :
  MAX_DEPTH <= d + 1 ->
  FindBestMove (S n) P d
  = FindBestMove_with (fun s _ => ret (EvaluateStaticPosition s)) P d.
Proof.
  intros Hd. unfold FindBestMove, FindBestMove_with.
  rewrite (move_loop_ext (EvaluatePosition (S n))
             (fun s _ => ret (EvaluateStaticPosition s)) d); [done|].
  intros s. rewrite EvaluatePosition_S.
  by rewrite (proj2 (Z.leb_le _ _) Hd), orb_true_r.
Qed.

(** * Further properties of the engine, for an adapter that keeps its contract *)

(** X6.  On a position of the game with at least one legal move,
    [FindBestMove] stores [WINNING_POSITION] exactly when some move leads to
    a child rated [LOSING_POSITION], and then the move it returns leads to
    such a child: a forced win that is there is found and played. *)
Theorem forced_win_found (A : Adapter) (Inv : stateT -> Prop)
    (L : AdapterLaws A Inv) (P : stateT) (d : Z) :
  Inv P ->
  GenerateMoveList P <> [] ->
  (snd (find_best_move P d) = WINNING_POSITION
   <-> exists m, m ∈ GenerateMoveList P
         /\ evaluate_position (MakeMove P m) (d + 1) = LOSING_POSITION)
  /\ ((exists m, m ∈ GenerateMoveList P
         /\ evaluate_position (MakeMove P m) (d + 1) = LOSING_POSITION) ->
      exists mv, fst (find_best_move P d) = Some mv
        /\ mv ∈ GenerateMoveList P
        /\ evaluate_position (MakeMove P mv) (d + 1) = LOSING_POSITION).
Proof.
  intros HP Hne.
  destruct (find_best_move_choice (L:=L) P d HP Hne)
    as (pre & mv & post & Hmoves & _ & -> & _ & Hmin & _).
  assert (Hmv : mv ∈ GenerateMoveList P).
  { rewrite Hmoves, elem_of_app, elem_of_cons. tauto. }
  assert (Hb : LOSING_POSITION <= evaluate_position (MakeMove P mv) (d + 1)).
  { apply (evaluate_position_bounds (L:=L)). by apply make_inv. }
  assert (Hwin : (exists m, m ∈ GenerateMoveList P
                    /\ evaluate_position (MakeMove P m) (d + 1) = LOSING_POSITION)
                 -> evaluate_position (MakeMove P mv) (d + 1) = LOSING_POSITION).
  { intros (m & Hm & Hr). specialize (Hmin m Hm). lia. }
  simpl. split; [split|].
  - intros Hr. exists mv. split; [done|]. unfold LOSING_POSITION. lia.
  - intros Hex. rewrite (Hwin Hex). reflexivity.
  - intros Hex. exists mv. split; [done|]. split; [done|by apply Hwin].
Qed.

(** X7.  On a position of the game with at least one legal move,
    [FindBestMove] stores [LOSING_POSITION] exactly when every move leads to
    a child rated [WINNING_POSITION]. *)
Theorem lost_iff_all_replies_win (A : Adapter) (Inv : stateT -> Prop)
    (L : AdapterLaws A Inv) (P : stateT) (d : Z) :
  Inv P ->
  GenerateMoveList P <> [] ->
  (snd (find_best_move P d) = LOSING_POSITION
   <-> forall m, m ∈ GenerateMoveList P ->
         evaluate_position (MakeMove P m) (d + 1) = WINNING_POSITION).
Proof.
  intros HP Hne.
  destruct (find_best_move_choice (L:=L) P d HP Hne)
    as (pre & mv & post & Hmoves & _ & -> & _ & Hmin & _).
  assert (Hmv : mv ∈ GenerateMoveList P).
  { rewrite Hmoves, elem_of_app, elem_of_cons. tauto. }
  simpl. split.
  - intros Hr m Hm. specialize (Hmin m Hm).
    assert (evaluate_position (MakeMove P m) (d + 1) <= WINNING_POSITION).
    { apply (evaluate_position_bounds (L:=L)). by apply make_inv. }
    unfold LOSING_POSITION in Hr. lia.
  - intros Hall. rewrite (Hall mv Hmv). reflexivity.
Qed.

(** X8.  When the static evaluation of the adapter yields nothing but the
    three landmarks, so does the search, at every depth: as the source has
    it, no intermediate value ever arises. *)
Theorem landmarks_only (A : Adapter) (Inv : stateT -> Prop)
    (L : AdapterLaws A Inv) (P : stateT) (d : Z) :
  (forall s, Inv s ->
     EvaluateStaticPosition s = LOSING_POSITION
     \/ EvaluateStaticPosition s = NEUTRAL_POSITION
     \/ EvaluateStaticPosition s = WINNING_POSITION) ->
  Inv P ->
  evaluate_position P d = LOSING_POSITION
  \/ evaluate_position P d = NEUTRAL_POSITION
  \/ evaluate_position P d = WINNING_POSITION.
Proof.
  intros Hstatic. remember (Z.to_nat (MAX_DEPTH - d)) as k eqn:Hk.
  revert P d Hk. induction k as [|k IH]; intros P d Hk HP;
    rewrite evaluate_position_unfold;
    destruct (GameIsOver P) eqn:Hover; simpl; try (by apply Hstatic);
    destruct (Z.leb_spec MAX_DEPTH d) as [Hd|Hd]; try (by apply Hstatic);
    try lia.
  pose proof (moves_available P HP Hover) as Hne.
  destruct (find_best_move_choice (L:=L) P d HP Hne)
    as (pre & mv & post & Hmoves & _ & -> & _).
  assert (Hmv : mv ∈ GenerateMoveList P).
  { rewrite Hmoves, elem_of_app, elem_of_cons. tauto. }
  simpl.
  destruct (IH (MakeMove P mv) (d + 1)) as [Hr|[Hr|Hr]];
    [lia|by apply make_inv| | |]; rewrite Hr;
    unfold LOSING_POSITION, NEUTRAL_POSITION, WINNING_POSITION; tauto.
Qed.

(** * The play loop of [main] *)

Section MainFacts.

Context {A : Adapter} {io : Type} {H : Host io}.

Lemma play_turn_makes_move (s : stateT) (w : io) :
  exists m, fst (play_turn s w) = MakeMove s m.
Proof.
  unfold play_turn. destruct (WhoseTurn s).
  - destruct (GetUserMove s (DisplayGame s w)) as [m w']. by exists m.
  - destruct (ChooseComputerMove s (DisplayGame s w)) as [m w']. by exists m.
Qed.

Lemma play_loop_over (n : nat) :
  forall s w s' w',
    play_loop n s w = Some (s', w') -> GameIsOver s' = true.
Proof.
  induction n as [|n IH]; intros s w s' w'; simpl; [done|].
  destruct (GameIsOver s) eqn:Hover; [by intros [= <- _]|].
  destruct (play_turn s w) as [s1 w1]. apply IH.
Qed.

Lemma play_loop_ends (Inv : stateT -> Prop) (turns : stateT -> nat) :
  (forall s m, Inv s -> GameIsOver s = false ->
     Inv (MakeMove s m) /\ (turns (MakeMove s m) < turns s)%nat) ->
  forall n s w,
    Inv s -> (turns s < n)%nat ->
    exists s' w', play_loop n s w = Some (s', w') /\ Inv s'.
Proof.
  intros Hstep. induction n as [|n IH]; intros s w HP Hn; [lia|]. simpl.
  destruct (GameIsOver s) eqn:Hover; [by exists s, w|].
  destruct (play_turn_makes_move s w) as [m Hm].
  destruct (play_turn s w) as [s1 w1]. simpl in Hm. subst s1.
  destruct (Hstep s m HP Hover) as [HP' Hlt]. apply IH; [done|lia].
Qed.

End MainFacts.

Lemma tictactoe_turns (s : stateT) (m : moveT) :
  turns_in_range s ->
  GameIsOver (Adapter:=TicTacToe.adapter) s = false ->
  turns_in_range (MakeMove (Adapter:=TicTacToe.adapter) s m)
  /\ (turns_left (MakeMove (Adapter:=TicTacToe.adapter) s m) < turns_left s)%nat.
Proof.
  unfold turns_in_range, turns_left. intros Hr Hover. simpl in *.
  unfold TicTacToe.GameIsOver in Hover.
  apply orb_false_iff in Hover as [Hover _].
  apply orb_false_iff in Hover as [Hnine _]. apply Z.eqb_neq in Hnine. lia.
Qed.

(** X9.  When [main] returns, its exit status is 0, the loop has stopped on
    a position for which [GameIsOver] holds, and the last thing done to the
    outside world is [AnnounceResult] on that position; when the game is
    over from the start no move is asked for and none is made. *)
Theorem main_announces_finished_game (A : Adapter) (io : Type) (H : Host io)
    (fuel : nat) (w w' : io) (status : Z) :
  main fuel w = Some (status, w') ->
  status = 0
  /\ (exists state w1,
        play_loop fuel NewGame (GiveInstructions w) = Some (state, w1)
        /\ GameIsOver state = true
        /\ w' = AnnounceResult state w1)
  /\ (GameIsOver NewGame = true ->
      w' = AnnounceResult NewGame (GiveInstructions w)).
Proof.
  unfold main.
  destruct (play_loop fuel NewGame (GiveInstructions w)) as [[state w1]|] eqn:Hloop;
    [|done].
  intros [= <- <-]. split; [done|]. split.
  - exists state, w1. split; [done|]. split; [by eapply play_loop_over|done].
  - intros Hover. destruct fuel as [|fuel]; [done|]. simpl in Hloop.
    rewrite Hover in Hloop. by injection Hloop as <- <-.
Qed.

(** X10.  When every move made on a position that is not over lowers a
    count of the turns left, whatever the move, [main] returns: the loop
    test is evaluated at most once more than there are turns left at the
    start, whatever the user and the computer play. *)
Theorem main_returns (A : Adapter) (io : Type) (H : Host io)
    (Inv : stateT -> Prop) (turns : stateT -> nat) (k : nat) (w : io) :
  Inv NewGame ->
  (forall s m, Inv s -> GameIsOver s = false ->
     Inv (MakeMove s m) /\ (turns (MakeMove s m) < turns s)%nat) ->
  exists state w1,
    play_loop (S (turns NewGame) + k) NewGame (GiveInstructions w)
      = Some (state, w1)
    /\ Inv state /\ GameIsOver state = true
    /\ main (S (turns NewGame) + k) w = Some (0, AnnounceResult state w1).
Proof.
  intros Hnew Hstep.
  destruct (play_loop_ends Inv turns Hstep (S (turns NewGame) + k) NewGame
              (GiveInstructions w) Hnew) as (state & w1 & Hloop & Hinv); [lia|].
  exists state, w1. split; [done|]. split; [done|].
  split; [by eapply play_loop_over|]. unfold main. by rewrite Hloop.
Qed.

(** * Games of bounded length *)

Section BoundedGames.

Context {A : Adapter} {Inv : stateT -> Prop} {L : AdapterLaws A Inv}.
Variable rank : stateT -> nat.
Hypothesis rank_decreases : forall s m,
  Inv s -> m ∈ GenerateMoveList s -> (rank (MakeMove s m) < rank s)%nat.

Lemma EvaluatePosition_rank (n : nat) :
  forall (P : stateT) (d : Z),
    Inv P -> (rank P < n)%nat ->
    EvaluatePosition n P d = Some (evaluate_position P d, [])
    /\ EvaluatePosition_exhaustive n P d = Some (evaluate_position P d, [])
    /\ LOSING_POSITION <= evaluate_position P d <= WINNING_POSITION.
Proof.
  induction n as [|n IH]; intros P d HP Hn; [lia|].
  apply (EvaluatePosition_step (L:=L)); [done|].
  intros Hover Hd m Hm. apply IH; [by apply make_inv|].
  pose proof (rank_decreases P m HP Hm). lia.
Qed.

Lemma evaluate_position_rank (n : nat) :
  forall (P : stateT) (d d' : Z),
    Inv P -> (rank P < n)%nat ->
    d + Z.of_nat (rank P) <= MAX_DEPTH ->
    d' + Z.of_nat (rank P) <= MAX_DEPTH ->
    evaluate_position P d = evaluate_position P d'.
Proof.
  induction n as [|n IH]; intros P d d' HP Hn Hd Hd'; [lia|].
  rewrite !evaluate_position_unfold.
  destruct (GameIsOver P) eqn:Hover; simpl; [done|].
  pose proof (moves_available P HP Hover) as Hne.
  assert (Hpos : (0 < rank P)%nat).
  { destruct (GenerateMoveList P) as [|m rest] eqn:Hmoves; [done|].
    pose proof (rank_decreases P m HP) as Hlt. rewrite Hmoves in Hlt.
    specialize (Hlt ltac:(rewrite elem_of_cons; by left)). lia. }
  rewrite (proj2 (Z.leb_gt MAX_DEPTH d)), (proj2 (Z.leb_gt MAX_DEPTH d')) by lia.
  destruct (find_best_move_select (L:=L) P d HP Hne) as [-> _].
  destruct (find_best_move_select (L:=L) P d' HP Hne) as [-> _].
  simpl. f_equal. f_equal. apply select_move_ext. intros m Hm.
  pose proof (rank_decreases P m HP Hm) as Hlt.
  apply IH; [by apply make_inv|lia|lia|lia].
Qed.

End BoundedGames.

(** X11.  For a game in which every legal move lowers a rank of the
    position, calls of [EvaluatePosition] nest at most rank plus one deep, at
    every depth, and the run prints nothing: the recursion ends with the game,
    not only with the cap. *)
Theorem recursion_bounded_by_rank (A : Adapter) (Inv : stateT -> Prop)
    (L : AdapterLaws A Inv) (rank : stateT -> nat) (P : stateT) (d : Z)
    (k : nat) :
  (forall s m, Inv s -> m ∈ GenerateMoveList s ->
     (rank (MakeMove s m) < rank s)%nat) ->
  Inv P ->
  EvaluatePosition (S (rank P) + k) P d = Some (evaluate_position P d, []).
Proof.
  intros Hrank HP.
  apply (EvaluatePosition_rank (L:=L) rank Hrank); [done|lia].
Qed.

(** X12.  For such a game the rating of a position does not depend on the
    depth, as long as the depth plus the rank of the position does not exceed
    [MAX_DEPTH]: below the cap the depth parameter has no influence on the
    result. *)
Theorem depth_irrelevant_below_cap (A : Adapter) (Inv : stateT -> Prop)
    (L : AdapterLaws A Inv) (rank : stateT -> nat) (P : stateT) (d d' : Z) :
  (forall s m, Inv s -> m ∈ GenerateMoveList s ->
     (rank (MakeMove s m) < rank s)%nat) ->
  Inv P ->
  d + Z.of_nat (rank P) <= MAX_DEPTH ->
  d' + Z.of_nat (rank P) <= MAX_DEPTH ->
  evaluate_position P d = evaluate_position P d'.
Proof.
  intros Hrank HP Hd Hd'.
  apply (evaluate_position_rank (L:=L) rank Hrank (S (rank P))); [done|lia|done|done].
Qed.

(** * The further properties at concrete positions *)

Section FurtherScenarios.

#[local] Existing Instance TicTacToe.adapter.

Lemma tictactoe_rank (s : stateT) (m : moveT) :
  m ∈ GenerateMoveList s ->
  (TicTacToe.empty_squares (board (MakeMove s m))
   < TicTacToe.empty_squares (board s))%nat.
Proof.
  intros Hm. pose proof (MakeMove_empty_squares s m Hm) as Hs.
  change (MakeMove s m) with (TicTacToe.MakeMove s m). lia.
Qed.

Lemma static_three_landmarks (s : stateT) :
  EvaluateStaticPosition s = LOSING_POSITION
  \/ EvaluateStaticPosition s = NEUTRAL_POSITION
  \/ EvaluateStaticPosition s = WINNING_POSITION.
Proof.
  simpl. unfold TicTacToe.EvaluateStaticPosition.
  repeat destruct (TicTacToe.CheckForWin _ _); tauto.
Qed.

Lemma last_ply_is_static_witness :
  MAX_DEPTH <= 9999 + 1
  /\ FindBestMove 1 TicTacToe.position_S3 9999
     = FindBestMove_with (fun s _ => ret (EvaluateStaticPosition s))
         TicTacToe.position_S3 9999.
Proof.
  assert (Hd : MAX_DEPTH <= 9999 + 1) by (unfold MAX_DEPTH; lia).
  split; [exact Hd|].
  exact (last_ply_is_static TicTacToe.adapter TicTacToe.position_S3 9999 0 Hd).
Defined.

Lemma forced_win_found_witness :
  TicTacToe.legal_position TicTacToe.position_S3
  /\ GenerateMoveList TicTacToe.position_S3 <> []
  /\ (snd (find_best_move TicTacToe.position_S3 0) = WINNING_POSITION
      <-> exists m, m ∈ GenerateMoveList TicTacToe.position_S3
            /\ evaluate_position (MakeMove TicTacToe.position_S3 m) (0 + 1)
               = LOSING_POSITION).
Proof.
  assert (HP : TicTacToe.legal_position TicTacToe.position_S3)
    by (split; reflexivity).
  assert (Hne : GenerateMoveList TicTacToe.position_S3 <> [])
    by (vm_compute; discriminate).
  split; [exact HP|]. split; [exact Hne|].
  exact (proj1 (forced_win_found TicTacToe.adapter TicTacToe.legal_position
                  tictactoe_laws TicTacToe.position_S3 0 HP Hne)).
Defined.

Lemma lost_iff_all_replies_win_witness :
  TicTacToe.legal_position TicTacToe.position_S4
  /\ GenerateMoveList TicTacToe.position_S4 <> []
  /\ (snd (find_best_move TicTacToe.position_S4 0) = LOSING_POSITION
      <-> forall m, m ∈ GenerateMoveList TicTacToe.position_S4 ->
            evaluate_position (MakeMove TicTacToe.position_S4 m) (0 + 1)
            = WINNING_POSITION).
Proof.
  assert (HP : TicTacToe.legal_position TicTacToe.position_S4)
    by (split; reflexivity).
  assert (Hne : GenerateMoveList TicTacToe.position_S4 <> [])
    by (vm_compute; discriminate).
  split; [exact HP|]. split; [exact Hne|].
  exact (lost_iff_all_replies_win TicTacToe.adapter TicTacToe.legal_position
           tictactoe_laws TicTacToe.position_S4 0 HP Hne).
Defined.

Lemma landmarks_only_witness :
  TicTacToe.legal_position TicTacToe.position_S4
  /\ (evaluate_position TicTacToe.position_S4 0 = LOSING_POSITION
      \/ evaluate_position TicTacToe.position_S4 0 = NEUTRAL_POSITION
      \/ evaluate_position TicTacToe.position_S4 0 = WINNING_POSITION).
Proof.
  assert (HP : TicTacToe.legal_position TicTacToe.position_S4)
    by (split; reflexivity).
  split; [exact HP|].
  exact (landmarks_only TicTacToe.adapter TicTacToe.legal_position
           tictactoe_laws TicTacToe.position_S4 0
           (fun s _ => static_three_landmarks s) HP).
Defined.

Lemma main_announces_finished_game_witness :
  main (H:=quiet_host TicTacToe.position_S3) 6 tt = Some (0, tt)
  /\ exists state w1,
       play_loop (H:=quiet_host TicTacToe.position_S3) 6
         TicTacToe.position_S3 tt = Some (state, w1)
       /\ GameIsOver state = true.
Proof.
  assert (Hmain : main (H:=quiet_host TicTacToe.position_S3) 6 tt = Some (0, tt))
    by (vm_compute; reflexivity).
  split; [exact Hmain|].
  destruct (main_announces_finished_game TicTacToe.adapter unit
              (quiet_host TicTacToe.position_S3) 6 tt tt 0 Hmain)
    as (_ & (state & w1 & Hloop & Hover & _) & _).
  exists state, w1. split; [exact Hloop|exact Hover].
Defined.

Lemma main_returns_witness :
  turns_in_range TicTacToe.NewGame
  /\ exists state w1,
       play_loop (H:=quiet_host TicTacToe.NewGame) 10 TicTacToe.NewGame tt
         = Some (state, w1)
       /\ GameIsOver state = true.
Proof.
  assert (Hnew : turns_in_range TicTacToe.NewGame)
    by (unfold turns_in_range; simpl; lia).
  split; [exact Hnew|].
  destruct (main_returns TicTacToe.adapter unit (quiet_host TicTacToe.NewGame)
              turns_in_range turns_left 0 tt Hnew tictactoe_turns)
    as (state & w1 & Hloop & _ & Hover & _).
  exists state, w1. split; [exact Hloop|exact Hover].
Defined.

Lemma recursion_bounded_by_rank_witness :
  TicTacToe.legal_position TicTacToe.position_S3
  /\ EvaluatePosition 6 TicTacToe.position_S3 0
     = Some (evaluate_position TicTacToe.position_S3 0, []).
Proof.
  assert (HP : TicTacToe.legal_position TicTacToe.position_S3)
    by (split; reflexivity).
  split; [exact HP|].
  exact (recursion_bounded_by_rank TicTacToe.adapter TicTacToe.legal_position
           tictactoe_laws (fun s => TicTacToe.empty_squares (board s))
           TicTacToe.position_S3 0 0 (fun s m _ Hm => tictactoe_rank s m Hm) HP).
Defined.

Lemma depth_irrelevant_below_cap_witness :
  TicTacToe.legal_position TicTacToe.position_S3
  /\ evaluate_position TicTacToe.position_S3 0
     = evaluate_position TicTacToe.position_S3 7.
Proof.
  assert (HP : TicTacToe.legal_position TicTacToe.position_S3)
    by (split; reflexivity).
  split; [exact HP|].
  apply (depth_irrelevant_below_cap TicTacToe.adapter TicTacToe.legal_position
           tictactoe_laws (fun s => TicTacToe.empty_squares (board s))
           TicTacToe.position_S3 0 7 (fun s m _ Hm => tictactoe_rank s m Hm) HP);
    vm_compute; discriminate.
Defined.

End FurtherScenarios.
